(** * go-coap, package net: the DTLS listener with cancellable accept

    A shallow embedding of [net/dtlslistener.go].  The listener owns one
    background goroutine ([acceptLoop], the accept pump) and is used by
    caller goroutines through [Accept], [AcceptWithContext], [SetDeadline]
    and [Close].  Goroutines are modelled by program counters named after
    the source lines they stand at, channels by their synchronisation
    rules, and the scheduler, the clock and the collaborators (the
    [dtls.Listener], the contexts) by the actions of a transition system. *)

From stdpp Require Import base tactics option numbers list strings gmap.

Local Open Scope Z_scope.

(** ** Package [time] *)

Module GoTime.

(** Instants and durations in nanoseconds.  The zero [Time] is the
    instant [0]; a [Duration] is an [int64]. *)
Definition Time := Z.
Definition Duration := Z.

Definition minDuration : Duration := - 2 ^ 63.
Definition maxDuration : Duration := 2 ^ 63 - 1.
Definition Millisecond : Duration := 1000000.

Definition IsZero (t : Time) : bool := t =? 0.

Definition Add (t : Time) (d : Duration) : Time := t + d.

(** [t.Sub(u)]: the difference, saturated to the range of [Duration]. *)
Definition Sub (t u : Time) : Duration :=
  let d := t - u in
  if d <? minDuration then minDuration
  else if maxDuration <? d then maxDuration
  else d.

(** [time.After(d)] evaluated at instant [now]: the instant from which
    the returned channel is ready.  A duration that is zero or negative
    makes it ready at once. *)
Definition After (now : Time) (d : Duration) : Time := now + Z.max 0 d.

End GoTime.

Import GoTime.

(** ** Errors *)

(** Error values: those built here with [fmt.Errorf], and those handed in
    by the collaborators (the dtls listener, a context). *)
#[local] Unset Elimination Schemes.
Inductive error : Type :=
| External (id : nat)
| Errorf (format : string) (args : list error).
#[local] Set Elimination Schemes.

Definition acceptFailed (e : error) : error :=
  Errorf "cannot accept connections: %v" [e].

(** Package [context].  [Canceled] and [DeadlineExceeded] are what [Err()]
    reports after the cancel function was called and after the deadline
    passed.  The interface asks that [Err()] be non-nil once [Done()] is
    closed: [cause] is the value of [Err()] at that point. *)
Definition Canceled : error := External 0.
Definition DeadlineExceeded : error := External 1.
Definition honours_Context (cause : option error) : bool :=
  match cause with Some _ => true | None => false end.

(** ** What the file takes from the rest of the package

    [NewConnDTLS], [isTemporary] and the constant [ioTimeout] are declared
    in other files of package [net]; the listener is verified for every
    choice of them. *)
Class Package := {
  Conn : Type;
  NewConnDTLS : option Conn → Conn;
  isTemporary : error → bool;
  ioTimeout : string;
}.

(** ** Progress of a method body *)

(** What a method does when its goroutine is scheduled: go on to another
    statement, return, or stay blocked. *)
Inductive progress (PC R : Type) : Type :=
| Next (pc : PC)
| Done (r : R)
| Blocked.
Arguments Next {PC R} pc.
Arguments Done {PC R} r.
Arguments Blocked {PC R}.

Section Listener.

Context `{Package}.

(** ** Data *)

Record connData := ConnData { conn : option Conn; err : option error }.

(** The collaborator [*dtls.Listener], reduced to the history of the calls
    made on it: how often [Accept] was entered, what it returned, and the
    grace periods passed to [Close]. *)
Record dtlsListener := DtlsListener {
  accept_calls : nat;
  accepted : list connData;
  close_calls : list Duration;
}.

(** [DTLSListener].  [doneCh] is [true] once the channel is closed;
    [connCh] has capacity zero and holds nothing: the field records the
    values that went through it, oldest first.  [deadline] is the
    [atomic.Value]: [None] until the first [Store]. *)
Record DTLSListener := Mk {
  listener : dtlsListener;
  heartBeat : Duration;
  wg : Z;
  doneCh : bool;
  connCh : list connData;
  deadline : option Time;
}.

Definition with_listener (x : dtlsListener) (l : DTLSListener) : DTLSListener :=
  Mk x (heartBeat l) (wg l) (doneCh l) (connCh l) (deadline l).
Definition with_wg (x : Z) (l : DTLSListener) : DTLSListener :=
  Mk (listener l) (heartBeat l) x (doneCh l) (connCh l) (deadline l).
Definition with_doneCh (x : bool) (l : DTLSListener) : DTLSListener :=
  Mk (listener l) (heartBeat l) (wg l) x (connCh l) (deadline l).
Definition with_connCh (x : list connData) (l : DTLSListener) : DTLSListener :=
  Mk (listener l) (heartBeat l) (wg l) (doneCh l) x (deadline l).
Definition with_deadline (x : option Time) (l : DTLSListener) : DTLSListener :=
  Mk (listener l) (heartBeat l) (wg l) (doneCh l) (connCh l) x.

(** ** The methods, statement by statement *)

(** [SetDeadline]: lines 96-99. *)
Definition SetDeadline (t : Time) (l : DTLSListener) : DTLSListener * option error :=
  (with_deadline (Some t) l, None).

(** [Accept]: lines 102-128. *)
Inductive accept_pc : Type :=
| AcceptLoad                   (* 103-109: load the deadline, test IsZero *)
| AcceptRecv                   (* 110: select with the single case <-connCh *)
| AcceptArm (deadline : Time)  (* 125: time.After(deadline.Sub(time.Now())) *)
| AcceptSelect (fire : Time).  (* 119: select between <-connCh and the timer *)

Definition timeoutError : error := Errorf ioTimeout [].

Definition Accept (now : Time) (l : DTLSListener) (pc : accept_pc)
  : progress accept_pc (option Conn * option error) :=
  match pc with
  | AcceptLoad =>
      let deadline := match deadline l with Some v => v | None => 0 end in
      if IsZero deadline then Next AcceptRecv else Next (AcceptArm deadline)
  | AcceptRecv => Blocked
  | AcceptArm deadline => Next (AcceptSelect (After now (Sub deadline now)))
  | AcceptSelect fire =>
      if fire <=? now then Done (None, Some timeoutError) else Blocked
  end.

(** The case [d := <-l.connCh] of either select: lines 111-115, 120-124. *)
Definition Accept_recv (d : connData) : option Conn * option error :=
  match err d with
  | Some e => (None, Some e)
  | None => (Some (NewConnDTLS (conn d)), None)
  end.

(** Whether [Accept] stands in a select that has the case [<-l.connCh]. *)
Definition receiving (pc : accept_pc) : bool :=
  match pc with
  | AcceptRecv | AcceptSelect _ => true
  | AcceptLoad | AcceptArm _ => false
  end.

(** [AcceptWithContext]: lines 70-93. *)
Inductive ctx_pc : Type :=
| CtxCheck                     (* 72: select on ctx.Done() with default *)
| CtxSetDeadline               (* 80: SetDeadline(time.Now().Add(heartBeat)) *)
| CtxAccept (pc : accept_pc).  (* 84: inside l.Accept() *)

(** Lines 72-79; [done] is [Some cause] when [ctx.Done()] is closed, with
    [cause] the value of [ctx.Err()]. *)
Definition AcceptWithContext_check (done : option (option error))
  : progress ctx_pc (option Conn * option error) :=
  match done with
  | Some (Some e) => Done (None, Some (acceptFailed e))
  | Some None => Done (None, None)
  | None => Next CtxSetDeadline
  end.

(** Lines 80-83. *)
Definition AcceptWithContext_deadline (now : Time) (l : DTLSListener)
  : DTLSListener * progress ctx_pc (option Conn * option error) :=
  let '(l', err) := SetDeadline (Add now (heartBeat l)) l in
  match err with
  | Some e => (l', Done (None, Some (acceptFailed e)))
  | None => (l', Next (CtxAccept AcceptLoad))
  end.

(** Lines 84-91, on the pair [l.Accept()] returned. *)
Definition AcceptWithContext_after (r : option Conn * option error)
  : progress ctx_pc (option Conn * option error) :=
  match r with
  | (rw, Some err) =>
      if isTemporary err then Next CtxCheck
      else Done (None, Some (acceptFailed err))
  | (rw, None) => Done (rw, None)
  end.

(** [Close]: lines 131-136. *)
Inductive close_pc : Type :=
| CloseListener                     (* 132: l.listener.Close(100ms) *)
| CloseDone (err : option error)    (* 133: close(l.doneCh) *)
| CloseWait (err : option error).   (* 134-135: l.wg.Wait(); return err *)

Definition closeGrace : Duration := Millisecond * 100.

(** [acceptLoop]: lines 30-43. *)
Inductive pump_pc : Type :=
| PumpCall                  (* 33: about to call l.listener.Accept() *)
| PumpBlocked               (* 33: inside l.listener.Accept() *)
| PumpSelect (d : connData) (* 34: select between the send and <-doneCh *)
| PumpReturned.             (* returned; the deferred wg.Done() has run *)

(** ** Goroutines *)

(** What a finished call handed back: [(net.Conn, error)] or [error]. *)
Inductive retval : Type :=
| RConn (r : option Conn * option error)
| RErr (e : option error).

(** A caller goroutine is inside one method of the listener, or has come
    back from one, or has panicked.  A goroutine that has not called
    anything yet has no frame. *)
Inductive frame : Type :=
| InSetDeadline (t : Time)
| InAccept (pc : accept_pc)
| InAcceptWithContext (ctx : nat) (pc : ctx_pc)
| InClose (pc : close_pc)
| Returned (v : retval)
| Panicked.

Inductive call : Type :=
| CallSetDeadline (t : Time)
| CallAccept
| CallAcceptWithContext (ctx : nat)
| CallClose.

Definition enter (c : call) : frame :=
  match c with
  | CallSetDeadline t => InSetDeadline t
  | CallAccept => InAccept AcceptLoad
  | CallAcceptWithContext ctx => InAcceptWithContext ctx CtxCheck
  | CallClose => InClose CloseListener
  end.

(** The whole system: the clock, the listener, the pump, the callers by
    goroutine number, and the contexts by number; a context is in the map
    once its [Done()] channel is closed, with the value of its [Err()]. *)
Record state := State {
  now : Time;
  lst : DTLSListener;
  pump : pump_pc;
  goroutines : gmap nat frame;
  contexts : gmap nat (option error);
}.

Definition with_now (x : Time) (s : state) : state :=
  State x (lst s) (pump s) (goroutines s) (contexts s).
Definition with_lst (x : DTLSListener) (s : state) : state :=
  State (now s) x (pump s) (goroutines s) (contexts s).
Definition with_pump (x : pump_pc) (s : state) : state :=
  State (now s) (lst s) x (goroutines s) (contexts s).
Definition with_frame (g : nat) (f : frame) (s : state) : state :=
  State (now s) (lst s) (pump s) (<[g := f]> (goroutines s)) (contexts s).
Definition with_context (c : nat) (cause : option error) (s : state) : state :=
  State (now s) (lst s) (pump s) (goroutines s) (<[c := cause]> (contexts s)).

(** What the scheduler and the outside world can do next. *)
Inductive action : Type :=
| Tick (dt : Duration)                    (* the clock advances *)
| Cancel (ctx : nat) (cause : option error)  (* a context's Done() closes *)
| Enter (g : nat) (c : call)              (* goroutine g calls a method *)
| Run (g : nat)                           (* goroutine g runs its statement *)
| ListenerClosed (g : nat) (e : option error)  (* listener.Close returns e to g *)
| PumpRun                                 (* the pump enters listener.Accept *)
| ListenerAccepted (d : connData)         (* listener.Accept returns d *)
| Handoff (g : nat)                       (* connCh: the pump sends, g receives *)
| PumpSeesDone.                           (* the pump's case <-l.doneCh *)

(** The deferred [l.wg.Done()] and the return of [acceptLoop]. *)
Definition pump_return (s : state) : state :=
  with_pump PumpReturned (with_lst (with_wg (wg (lst s) - 1) (lst s)) s).

(** Where the frame of a call goes, given the progress of its body. *)
Definition resume {PC : Type} (g : nat) (k : PC → frame)
    (p : progress PC (option Conn * option error)) (s : state) : option state :=
  match p with
  | Next pc => Some (with_frame g (k pc) s)
  | Done r => Some (with_frame g (Returned (RConn r)) s)
  | Blocked => None
  end.

(** The statement goroutine [g] stands at, run to the next one. *)
Definition run_frame (g : nat) (f : frame) (s : state) : option state :=
  match f with
  | InSetDeadline t =>
      let '(l', err) := SetDeadline t (lst s) in
      Some (with_frame g (Returned (RErr err)) (with_lst l' s))
  | InAccept pc =>
      resume g InAccept (Accept (now s) (lst s) pc) s
  | InAcceptWithContext c CtxCheck =>
      resume g (InAcceptWithContext c)
        (AcceptWithContext_check (contexts s !! c)) s
  | InAcceptWithContext c CtxSetDeadline =>
      let '(l', p) := AcceptWithContext_deadline (now s) (lst s) in
      resume g (InAcceptWithContext c) p (with_lst l' s)
  | InAcceptWithContext c (CtxAccept pc) =>
      match Accept (now s) (lst s) pc with
      | Next pc' => Some (with_frame g (InAcceptWithContext c (CtxAccept pc')) s)
      | Done r => resume g (InAcceptWithContext c) (AcceptWithContext_after r) s
      | Blocked => None
      end
  | InClose CloseListener => None
  | InClose (CloseDone e) =>
      if doneCh (lst s) then Some (with_frame g Panicked s)
      else Some (with_frame g (InClose (CloseWait e))
                   (with_lst (with_doneCh true (lst s)) s))
  | InClose (CloseWait e) =>
      if wg (lst s) =? 0 then Some (with_frame g (Returned (RErr e)) s)
      else None
  | Returned _ | Panicked => None
  end.

(** The receiving side of a rendezvous on [connCh]. *)
Definition receive (g : nat) (f : frame) (d : connData) (s : state) : option state :=
  match f with
  | InAccept pc =>
      if receiving pc then Some (with_frame g (Returned (RConn (Accept_recv d))) s)
      else None
  | InAcceptWithContext c (CtxAccept pc) =>
      if receiving pc
      then resume g (InAcceptWithContext c) (AcceptWithContext_after (Accept_recv d)) s
      else None
  | _ => None
  end.

(** The sending side, lines 35-38, once the send has happened. *)
Definition acceptLoop_sent (d : connData) (s : state) : state :=
  let s' := with_lst (with_connCh (connCh (lst s) ++ [d]) (lst s)) s in
  match err d with
  | Some _ => pump_return s'
  | None => with_pump PumpCall s'
  end.

Definition listener_accept_called (x : dtlsListener) : dtlsListener :=
  DtlsListener (S (accept_calls x)) (accepted x) (close_calls x).
Definition listener_accept_returned (d : connData) (x : dtlsListener) : dtlsListener :=
  DtlsListener (accept_calls x) (accepted x ++ [d]) (close_calls x).
Definition listener_close_called (grace : Duration) (x : dtlsListener) : dtlsListener :=
  DtlsListener (accept_calls x) (accepted x) (close_calls x ++ [grace]).

(** One step of the system; [None] when the action cannot happen in [s]. *)
Definition step (a : action) (s : state) : option state :=
  match a with
  | Tick dt =>
      if 0 <? dt then Some (with_now (now s + dt) s) else None
  | Cancel c cause =>
      match contexts s !! c with
      | None => Some (with_context c cause s)
      | Some _ => None
      end
  | Enter g c =>
      match goroutines s !! g with
      | None | Some (Returned _) => Some (with_frame g (enter c) s)
      | Some _ => None
      end
  | Run g =>
      match goroutines s !! g with
      | Some f => run_frame g f s
      | None => None
      end
  | ListenerClosed g e =>
      match goroutines s !! g with
      | Some (InClose CloseListener) =>
          Some (with_frame g (InClose (CloseDone e))
                  (with_lst (with_listener
                     (listener_close_called closeGrace (listener (lst s))) (lst s)) s))
      | _ => None
      end
  | PumpRun =>
      match pump s with
      | PumpCall =>
          Some (with_pump PumpBlocked
                  (with_lst (with_listener
                     (listener_accept_called (listener (lst s))) (lst s)) s))
      | _ => None
      end
  | ListenerAccepted d =>
      match pump s with
      | PumpBlocked =>
          Some (with_pump (PumpSelect d)
                  (with_lst (with_listener
                     (listener_accept_returned d (listener (lst s))) (lst s)) s))
      | _ => None
      end
  | Handoff g =>
      match pump s, goroutines s !! g with
      | PumpSelect d, Some f =>
          match receive g f d s with
          | Some s' => Some (acceptLoop_sent d s')
          | None => None
          end
      | _, _ => None
      end
  | PumpSeesDone =>
      match pump s with
      | PumpSelect _ => if doneCh (lst s) then Some (pump_return s) else None
      | _ => None
      end
  end.

(** A schedule, run from [s]. *)
Fixpoint run (sched : list action) (s : state) : option state :=
  match sched with
  | [] => Some s
  | a :: rest =>
      match step a s with
      | Some s' => run rest s'
      | None => None
      end
  end.

(** [NewDTLSListener]: lines 47-67.  [resolved] and [listened] are what
    [net.ResolveUDPAddr] and [dtls.Listen] answered. *)
Definition NewDTLSListener (resolved listened : option error) (heartBeat : Duration)
  : DTLSListener + error :=
  match resolved with
  | Some e => inr (Errorf "cannot resolve address: %v" [e])
  | None =>
      match listened with
      | Some e => inr (Errorf "cannot create new dtls listener: %v" [e])
      | None =>
          let l := Mk (DtlsListener 0 [] []) heartBeat 0 false [] None in
          inl (with_wg (wg l + 1) l)
      end
  end.

(** The system right after a successful [NewDTLSListener] at instant [t0]:
    [go l.acceptLoop()] has started the pump, no caller has done anything,
    no context is cancelled. *)
Definition boot (t0 : Time) (l : DTLSListener) : state :=
  State t0 l PumpCall ∅ ∅.

Definition started (t0 : Time) (heartBeat : Duration) (s : state) : Prop :=
  ∃ l, NewDTLSListener None None heartBeat = inl l ∧ s = boot t0 l.

Definition reachable (s : state) : Prop :=
  ∃ t0 hb s0 sched, started t0 hb s0 ∧ run sched s0 = Some s.

(** Whether [sched] leaves goroutine [g] in the call it is in: [g] enters
    no method along it. *)
Definition same_call (g : nat) (sched : list action) : bool :=
  forallb (λ a, match a with Enter g' _ => negb (g' =? g)%nat | _ => true end) sched.

(** Whether goroutine [g] may call a method: it is in no call. *)
Definition free (g : nat) (s : state) : bool :=
  match goroutines s !! g with
  | None | Some (Returned _) => true
  | Some _ => false
  end.

(** The goroutine an action belongs to, if it is a caller's. *)
Definition actor (a : action) : option nat :=
  match a with
  | Enter g _ | Run g | ListenerClosed g _ | Handoff g => Some g
  | Tick _ | Cancel _ _ | PumpRun | ListenerAccepted _ | PumpSeesDone => None
  end.

(** The deadline is written by [SetDeadline] and by line 80 of
    [AcceptWithContext], and by nothing else. *)
Definition stores_deadline (f : frame) : bool :=
  match f with
  | InSetDeadline _ | InAcceptWithContext _ CtxSetDeadline => true
  | _ => false
  end.

Definition noerr (d : connData) : Prop := err d = None.

(** Every outcome of the dtls listener's [Accept] went through [connCh],
    in order, except the last one while it is on offer or when the pump
    left through [<-l.doneCh]; only the last value sent can be an error,
    and then the pump has returned; [wg] counts the pump. *)
Definition pump_inv (s : state) : Prop :=
  let x := listener (lst s) in
  let sent := connCh (lst s) in
  match pump s with
  | PumpCall =>
      accepted x = sent ∧ accept_calls x = length sent ∧ Forall noerr sent
      ∧ wg (lst s) = 1
  | PumpBlocked =>
      accepted x = sent ∧ accept_calls x = S (length sent) ∧ Forall noerr sent
      ∧ wg (lst s) = 1
  | PumpSelect d =>
      accepted x = sent ++ [d] ∧ accept_calls x = S (length sent) ∧ Forall noerr sent
      ∧ wg (lst s) = 1
  | PumpReturned =>
      wg (lst s) = 0 ∧
      ((∃ d, accepted x = sent ++ [d] ∧ accept_calls x = S (length sent)
             ∧ Forall noerr sent ∧ doneCh (lst s) = true)
       ∨ (∃ before d e, accepted x = sent ∧ accept_calls x = length sent
             ∧ sent = before ++ [d] ∧ err d = Some e ∧ Forall noerr before))
  end.

(** How the frame of a call can change while the call lasts. *)
Definition follows (f f' : frame) : Prop :=
  match f with
  | InSetDeadline _ => f' = Returned (RErr None)
  | InAccept _ => (∃ pc, f' = InAccept pc) ∨ (∃ r, f' = Returned (RConn r))
  | InAcceptWithContext c _ =>
      (∃ pc, f' = InAcceptWithContext c pc) ∨ (∃ r, f' = Returned (RConn r))
  | InClose _ =>
      (∃ pc, f' = InClose pc) ∨ f' = Panicked ∨ (∃ e, f' = Returned (RErr e))
  | Returned _ | Panicked => False
  end.

(** Frames and calls that leave the deadline alone: everything but
    [SetDeadline] and [AcceptWithContext]. *)
Definition quiet (f : frame) : bool :=
  match f with
  | InSetDeadline _ | InAcceptWithContext _ _ => false
  | InAccept _ | InClose _ | Returned _ | Panicked => true
  end.

Definition quiet_action (a : action) : bool :=
  match a with
  | Enter _ (CallSetDeadline _) | Enter _ (CallAcceptWithContext _) => false
  | _ => true
  end.

Definition all_quiet (s : state) : Prop :=
  map_Forall (λ _ f, quiet f = true) (goroutines s).

(** What [AcceptWithContext] on context [c] may hand back in state [s]:
    nothing at all when the context is done with a nil [Err()]; the cause
    of the cancellation wrapped by [fmt.Errorf]; the error of an [Accept]
    that was not temporary, wrapped the same way; or the connection of a
    value received without error. *)
Definition ctx_outcome (c : nat) (s : state) (r : option Conn * option error) : Prop :=
  (r = (None, None) ∧ contexts s !! c = Some None)
  ∨ (∃ e, r = (None, Some (Errorf "cannot accept connections: %v" [e]))
       ∧ contexts s !! c = Some (Some e))
  ∨ (∃ e, r = (None, Some (Errorf "cannot accept connections: %v" [e]))
       ∧ isTemporary e = false)
  ∨ (∃ d, r = (Some (NewConnDTLS (conn d)), None) ∧ err d = None).

(** ** Counting what a schedule does *)

(** Deliveries over [connCh], returns of the dtls listener's [Accept] and
    returns of its [Close] in a schedule. *)
Definition handoffs (sched : list action) : nat :=
  length (List.filter (λ a, match a with Handoff _ => true | _ => false end) sched).
Definition accept_returns (sched : list action) : nat :=
  length (List.filter (λ a, match a with ListenerAccepted _ => true | _ => false end) sched).
Definition listener_closes (sched : list action) : nat :=
  length (List.filter (λ a, match a with ListenerClosed _ _ => true | _ => false end) sched).

(** Schedules in which the dtls listener's [Accept] does not return, and
    schedules in which nothing is handed to goroutine [g]. *)
Definition no_accept_return (sched : list action) : bool :=
  forallb (λ a, match a with ListenerAccepted _ => false | _ => true end) sched.
Definition no_handoff (g : nat) (sched : list action) : bool :=
  forallb (λ a, match a with Handoff g' => negb (g' =? g)%nat | _ => true end) sched.

(** States and schedules in which nobody is in, or calls, [SetDeadline]. *)
Definition outside_SetDeadline (f : frame) : bool :=
  match f with InSetDeadline _ => false | _ => true end.
Definition no_SetDeadline (s : state) : Prop :=
  map_Forall (λ _ f, outside_SetDeadline f = true) (goroutines s).
Definition calls_no_SetDeadline (a : action) : bool :=
  match a with Enter _ (CallSetDeadline _) => false | _ => true end.

(** The stored deadline is one that line 80 wrote, at some instant [t]
    between [t0] and now. *)
Definition heartbeat_deadline (t0 : Time) (s : state) : Prop :=
  ∃ t, t0 ≤ t ≤ now s ∧ deadline (lst s) = Some (Add t (heartBeat (lst s))).

(** Where a call of [Accept] that has loaded the deadline [dl] can be. *)
Definition armed_for (dl : Time) (f : frame) : Prop :=
  f = InAccept (AcceptArm dl)
  ∨ (∃ fire, dl ≤ fire ∧ f = InAccept (AcceptSelect fire))
  ∨ (∃ v, f = Returned v).


(** What the heartbeat has made sure of for goroutine [g] when it is in
    the [Accept] of [AcceptWithContext]: the deadline it is about to load
    is one line 80 wrote, the deadline it has loaded and the timer it has
    armed are at most a heartbeat ahead of the clock, and it does not
    stand in the select without timer. *)
Definition heartbeat_wait (t0 : Time) (g : nat) (s : state) : Prop :=
  match goroutines s !! g with
  | Some (InAcceptWithContext _ (CtxAccept AcceptLoad)) => heartbeat_deadline t0 s
  | Some (InAcceptWithContext _ (CtxAccept AcceptRecv)) => False
  | Some (InAcceptWithContext _ (CtxAccept (AcceptArm dl))) =>
      dl ≤ now s + heartBeat (lst s)
  | Some (InAcceptWithContext _ (CtxAccept (AcceptSelect fire))) =>
      fire ≤ now s + Z.max 0 (heartBeat (lst s))
  | _ => True
  end.

End Listener.

(** ** A concrete package and concrete runs

    For the examples the rest of the package is fixed: connections are
    numbers, [NewConnDTLS] wraps by taking the successor, and [isTemporary]
    accepts the timeout error of [Accept] and nothing else. *)
Definition example_package : Package := {|
  Conn := nat;
  NewConnDTLS := λ c, match c with Some n => S n | None => O end;
  isTemporary := λ e,
    match e with
    | Errorf f [] => String.eqb f "i/o timeout"
    | _ => false
    end;
  ioTimeout := "i/o timeout";
|}.

Section Examples.

#[local] Existing Instance example_package.

(** A listener with a heartbeat of 50ns, just created at instant 1000. *)
Definition ex_listener : DTLSListener :=
  Mk (DtlsListener 0 [] []) 50 1 false [] None.
Definition ex_boot : state := boot 1000 ex_listener.

(** The same with the deadline stored at instant 1005. *)
Definition ex_deadline : state :=
  with_lst (with_deadline (Some 1005) ex_listener) ex_boot.

(** The same with context 0 cancelled by its cancel function: [Done()] is
    closed and [Err()] is [context.Canceled]. *)
Definition ex_cancelled : state := with_context 0%nat (Some Canceled) ex_boot.

(** A fatal error of the dtls listener, and a connection. *)
Definition ex_fatal : connData := ConnData None (Some (External 7)).
Definition ex_conn : connData := ConnData (Some 3%nat) None.

(** The pump offering the fatal error. *)
Definition ex_offering : state :=
  with_pump (PumpSelect ex_fatal)
    (with_lst (with_listener (DtlsListener 1 [ex_fatal] []) ex_listener) ex_boot).

(** The state a schedule leads to; the starting state if it cannot run. *)
Definition after (sched : list action) (s : state) : state :=
  match run sched s with Some s' => s' | None => s end.

(** Goroutine 0 stores the deadline 1005 and calls [Accept]; the dtls
    listener fails with [ex_fatal]; the pump hands the error over. *)
Definition ex_sched_fatal : list action :=
  [Enter 0%nat (CallSetDeadline 1005); Run 0%nat;
   PumpRun; ListenerAccepted ex_fatal;
   Enter 0%nat CallAccept; Run 0%nat; Run 0%nat; Handoff 0%nat].

(** Goroutine 0 calls [Accept] once more and the clock passes the deadline. *)
Definition ex_sched_again : list action :=
  [Enter 0%nat CallAccept; Run 0%nat; Run 0%nat; Tick 10; Run 0%nat].

(** The deadline 1005 is stored, the pump comes to offer a connection, the
    clock passes the deadline, and only then goroutine 0 calls [Accept]. *)
Definition ex_sched_late : list action :=
  [Enter 0%nat (CallSetDeadline 1005); Run 0%nat;
   PumpRun; ListenerAccepted ex_conn; Tick 10;
   Enter 0%nat CallAccept; Run 0%nat; Run 0%nat; Handoff 0%nat].

(** Goroutine 0 calls [Close], the dtls listener's [Close] returns an
    error, the pump's [Accept] fails as the listener is closed, the pump
    sees [doneCh] closed and returns, and [Close] returns. *)
Definition ex_close_error : error := External 9.
Definition ex_sched_close : list action :=
  [ListenerClosed 0%nat (Some ex_close_error); PumpRun; Run 0%nat;
   ListenerAccepted ex_fatal; PumpSeesDone; Run 0%nat].
Definition ex_closed : state :=
  after (Enter 0%nat CallClose :: ex_sched_close) ex_boot.

(** Goroutine 0 is in [AcceptWithContext] on context 0: the heartbeat
    passes without a connection, the loop goes round, the context is
    cancelled with a cause, and the call returns. *)
Definition ex_in_ctx : state :=
  after [Enter 0%nat (CallAcceptWithContext 0%nat)] ex_boot.
Definition ex_sched_ctx : list action :=
  [Run 0%nat; Run 0%nat; Run 0%nat; Run 0%nat; Tick 50; Run 0%nat;
   Cancel 0%nat (Some (External 1)); Run 0%nat].

(** Goroutine 0 has closed [doneCh] in [Close] and waits for the pump,
    which comes to its select with a connection nobody asks for. *)
Definition ex_pump_sees_done : state :=
  after [Enter 0%nat CallClose; ListenerClosed 0%nat None; Run 0%nat;
         PumpRun; ListenerAccepted ex_conn] ex_boot.

(** Callers that only use [Accept] while the clock passes 1005. *)
Definition ex_sched_accepts : list action :=
  [Enter 1%nat CallAccept; Run 1%nat; Run 1%nat; Tick 10; Run 1%nat].

(** Goroutine 0 in [Accept] with the deadline 1005 loaded; then the clock
    passes the deadline. *)
Definition ex_armed : state := after [Enter 0%nat CallAccept; Run 0%nat] ex_deadline.
Definition ex_sched_wait : list action := [Run 0%nat; Tick 10].

(** Goroutine 1 waits in [Accept] without deadline while goroutine 0
    closes the listener. *)
Definition ex_waiting : state := after [Enter 1%nat CallAccept; Run 1%nat] ex_boot.

(** Goroutine 0 has passed line 80 of [AcceptWithContext] and goroutine 1
    stores the zero time before goroutine 0 loads the deadline. *)
Definition ex_zeroed : state :=
  after [Enter 0%nat (CallAcceptWithContext 0%nat); Run 0%nat; Run 0%nat;
         Enter 1%nat (CallSetDeadline 0); Run 1%nat] ex_boot.
Definition ex_sched_cancel : list action :=
  [Cancel 0%nat (Some (External 1)); Tick 100; PumpRun; ListenerAccepted ex_conn].

(** The pump is inside the dtls listener's [Accept] and goroutine 0 has
    called [Close]; the dtls listener's [Close] returns but its [Accept]
    does not. *)
Definition ex_pump_blocked : state := after [PumpRun; Enter 0%nat CallClose] ex_boot.
Definition ex_sched_stuck : list action :=
  [ListenerClosed 0%nat None; Run 0%nat; Tick 5].

(** Goroutine 0 at line 80 of [AcceptWithContext]. *)
Definition ex_at_line_80 : state :=
  after [Enter 0%nat (CallAcceptWithContext 0%nat); Run 0%nat] ex_boot.

(** The pump offers a connection; in the second state a caller had
    stored the deadline 1005 before. *)
Definition ex_offer : state := after [PumpRun; ListenerAccepted ex_conn] ex_boot.
Definition ex_sched_take : list action :=
  [Run 0%nat; Run 0%nat; Run 0%nat; Run 0%nat; Handoff 0%nat].

(** Goroutine 0 waits in the select of [Accept], its timer armed for 1005. *)
Definition ex_selecting : state :=
  after [Enter 0%nat CallAccept; Run 0%nat; Run 0%nat] ex_deadline.


(** A call of [AcceptWithContext] that reaches its select while the clock
    moves and another goroutine enters [Accept]. *)
Definition ex_sched_poll : list action :=
  [Run 0%nat; Run 0%nat; Tick 10; Run 0%nat; Enter 1%nat CallAccept;
   Run 0%nat; Tick 15].

End Examples.

Section Properties.

Context `{Package}.

(** ** Basic facts about the transition system *)

Lemma lookup_with_frame g f s g' :
  goroutines (with_frame g f s) !! g' =
    if decide (g = g') then Some f else goroutines s !! g'.
Proof. unfold with_frame; simpl. apply lookup_insert. Qed.

Lemma lookup_with_frame_eq g f s :
  goroutines (with_frame g f s) !! g = Some f.
Proof. rewrite lookup_with_frame. by case_decide. Qed.

Lemma run_app sched1 sched2 s :
  run (sched1 ++ sched2) s = run sched1 s ≫= run sched2.
Proof.
  revert s. induction sched1 as [|a sched1 IH]; intros s; simpl; [done|].
  destruct (step a s); simpl; auto.
Qed.

Lemma run_cons a sched s s' :
  run (a :: sched) s = Some s' ↔ ∃ s1, step a s = Some s1 ∧ run sched s1 = Some s'.
Proof.
  simpl. destruct (step a s) as [s1|]; split.
  - eauto.
  - by intros (? & [= <-] & ?).
  - done.
  - by intros (? & ? & ?).
Qed.

Lemma run_snoc sched a s s0 s1 :
  run sched s = Some s0 → step a s0 = Some s1 → run (sched ++ [a]) s = Some s1.
Proof.
  intros Hrun Hstep. rewrite run_app, Hrun. cbn [mbind option_bind run].
  by rewrite Hstep.
Qed.

Lemma same_call_cons g a sched :
  same_call g (a :: sched) = true →
  (∀ c, a ≠ Enter g c) ∧ same_call g sched = true.
Proof.
  unfold same_call; simpl. intros [Ha ?]%andb_prop. split; [|done].
  intros c ->. rewrite Nat.eqb_refl in Ha. done.
Qed.

Lemma reachable_step a s s' :
  reachable s → step a s = Some s' → reachable s'.
Proof.
  intros (t0 & hb & s0 & sched & Hs0 & Hrun) Hstep.
  exists t0, hb, s0, (sched ++ [a]). split; [done|].
  rewrite run_app, Hrun. simpl. by rewrite Hstep.
Qed.

Lemma reachable_run sched s s' :
  reachable s → run sched s = Some s' → reachable s'.
Proof.
  revert s. induction sched as [|a sched IH]; intros s Hs Hrun.
  - by injection Hrun as <-.
  - apply run_cons in Hrun as (s1 & Hstep & Hrun). eauto using reachable_step.
Qed.

(** Case analysis of a step that happened. *)
Ltac step_inv H :=
  unfold step, run_frame, receive, resume, acceptLoop_sent, pump_return,
    AcceptWithContext_check, AcceptWithContext_deadline, AcceptWithContext_after,
    Accept, Accept_recv, SetDeadline in H;
  repeat (match type of H with
          | context [match ?x with _ => _ end] => destruct x eqn:?; simplify_eq/=
          end).

(** ** What each kind of step touches *)

(** A caller's own statement changes its frame and, of the listener, at
    most [deadline] and [doneCh]; [doneCh] is only ever closed. *)
Lemma run_frame_effect g f s s' :
  run_frame g f s = Some s' →
  now s' = now s ∧ pump s' = pump s ∧ contexts s' = contexts s
  ∧ (∃ f', goroutines s' = <[g := f']> (goroutines s))
  ∧ listener (lst s') = listener (lst s)
  ∧ heartBeat (lst s') = heartBeat (lst s)
  ∧ wg (lst s') = wg (lst s)
  ∧ connCh (lst s') = connCh (lst s)
  ∧ (doneCh (lst s) = true → doneCh (lst s') = true).
Proof.
  intros Hrun. step_inv Hrun; eauto 12.
Qed.

Lemma receive_effect g f d s s' :
  receive g f d s = Some s' →
  now s' = now s ∧ pump s' = pump s ∧ contexts s' = contexts s
  ∧ lst s' = lst s
  ∧ (∃ f', goroutines s' = <[g := f']> (goroutines s)).
Proof.
  intros Hrecv. step_inv Hrecv; eauto 8.
Qed.

Lemma step_Handoff g s s' :
  step (Handoff g) s = Some s' →
  ∃ d f s1, pump s = PumpSelect d ∧ goroutines s !! g = Some f
    ∧ receive g f d s = Some s1 ∧ s' = acceptLoop_sent d s1.
Proof.
  simpl. intros Hstep.
  destruct (pump s) as [| |d|] eqn:?; try done.
  destruct (goroutines s !! g) as [f|] eqn:?; try done.
  destruct (receive g f d s) as [s1|] eqn:?; try done.
  injection Hstep as <-. eauto 8.
Qed.

Lemma step_Run g s s' :
  step (Run g) s = Some s' →
  ∃ f, goroutines s !! g = Some f ∧ run_frame g f s = Some s'.
Proof.
  simpl. destruct (goroutines s !! g) as [f|] eqn:?; [eauto|done].
Qed.

(** ** Invariants of the pump *)

Lemma pump_inv_step a s s' :
  pump_inv s → step a s = Some s' → pump_inv s'.
Proof.
  intros Hinv Hstep. destruct a as [dt|c cause|g c|g|g e| |d|g|].
  - step_inv Hstep. done.
  - step_inv Hstep; done.
  - step_inv Hstep; done.
  - apply step_Run in Hstep as (f & _ & Hf).
    apply run_frame_effect in Hf as (_ & Hp & _ & _ & Hl & _ & Hw & Hc & Hd).
    unfold pump_inv in *. rewrite Hp, Hl, Hw, Hc.
    destruct (pump s); [done..|].
    destruct Hinv as [? [(d & ? & ? & ? & ?)|?]]; eauto 10.
  - step_inv Hstep; done.
  - step_inv Hstep. unfold pump_inv in Hinv |- *. simpl.
    rewrite Heqp in Hinv. destruct Hinv as (-> & -> & ? & ?). done.
  - step_inv Hstep. unfold pump_inv in Hinv |- *. simpl.
    rewrite Heqp in Hinv. destruct Hinv as (-> & -> & ? & ?). done.
  - apply step_Handoff in Hstep as (d & f & s1 & Hp & _ & Hrecv & ->).
    apply receive_effect in Hrecv as (_ & Hp1 & _ & Hl & _).
    unfold pump_inv in Hinv. rewrite Hp in Hinv.
    destruct Hinv as (Hacc & Hcalls & Hsent & Hwg).
    unfold pump_inv, acceptLoop_sent, pump_return.
    destruct (err d) as [e|] eqn:He; simpl; rewrite Hl.
    + split; [lia|]. right. exists (connCh (lst s)), d, e.
      rewrite length_app. simpl. repeat split; auto. lia.
    + rewrite length_app. simpl. repeat split; auto; [lia|].
      apply Forall_app. split; [done|]. by apply Forall_singleton.
  - step_inv Hstep. unfold pump_inv in Hinv |- *. simpl.
    rewrite Heqp in Hinv. destruct Hinv as (? & ? & ? & ?).
    split; [lia|]. left. exists d. done.
Qed.

Lemma pump_inv_started t0 hb s : started t0 hb s → pump_inv s.
Proof.
  intros (l & Hl & ->). injection Hl as <-. unfold pump_inv; simpl. done.
Qed.

Lemma pump_inv_run sched s s' :
  pump_inv s → run sched s = Some s' → pump_inv s'.
Proof.
  revert s. induction sched as [|a sched IH]; intros s Hinv Hrun.
  - by injection Hrun as <-.
  - apply run_cons in Hrun as (s1 & Hstep & Hrun). eauto using pump_inv_step.
Qed.

Lemma pump_inv_reachable s : reachable s → pump_inv s.
Proof.
  intros (t0 & hb & s0 & sched & Hs0 & Hrun).
  eauto using pump_inv_run, pump_inv_started.
Qed.

(** ** Frames of the goroutines that do not move *)

Lemma acceptLoop_sent_effect d s :
  now (acceptLoop_sent d s) = now s
  ∧ goroutines (acceptLoop_sent d s) = goroutines s
  ∧ contexts (acceptLoop_sent d s) = contexts s
  ∧ deadline (lst (acceptLoop_sent d s)) = deadline (lst s)
  ∧ doneCh (lst (acceptLoop_sent d s)) = doneCh (lst s)
  ∧ listener (lst (acceptLoop_sent d s)) = listener (lst s)
  ∧ connCh (lst (acceptLoop_sent d s)) = connCh (lst s) ++ [d]
  ∧ pump (acceptLoop_sent d s) =
      match err d with Some _ => PumpReturned | None => PumpCall end.
Proof. unfold acceptLoop_sent, pump_return. by destruct (err d). Qed.

Lemma step_other_frame a s s' g :
  step a s = Some s' → actor a ≠ Some g →
  goroutines s' !! g = goroutines s !! g.
Proof.
  intros Hstep Hg. destruct a as [dt|c cause|g' c|g'|g' e| |d|g'|]; simpl in Hg.
  - by step_inv Hstep.
  - by step_inv Hstep.
  - step_inv Hstep; apply lookup_insert_ne; congruence.
  - apply step_Run in Hstep as (f & _ & Hf).
    apply run_frame_effect in Hf as (_ & _ & _ & (f' & ->) & _).
    apply lookup_insert_ne; congruence.
  - step_inv Hstep; apply lookup_insert_ne; congruence.
  - by step_inv Hstep.
  - by step_inv Hstep.
  - apply step_Handoff in Hstep as (d & f & s1 & _ & _ & Hrecv & ->).
    apply receive_effect in Hrecv as (_ & _ & _ & _ & (f' & Hg1)).
    destruct (acceptLoop_sent_effect d s1) as (_ & -> & _). rewrite Hg1.
    apply lookup_insert_ne; congruence.
  - by step_inv Hstep.
Qed.

Lemma step_deadline a s s' :
  step a s = Some s' →
  deadline (lst s') = deadline (lst s)
  ∨ ∃ g f, a = Run g ∧ goroutines s !! g = Some f ∧ stores_deadline f = true.
Proof.
  intros Hstep. destruct a as [dt|c cause|g' c|g'|g' e| |d|g'|].
  - left. by step_inv Hstep.
  - left. by step_inv Hstep.
  - left. by step_inv Hstep.
  - apply step_Run in Hstep as (f & Hg & Hf).
    destruct (stores_deadline f) eqn:Hst; [right; eauto|left].
    step_inv Hf; done.
  - left. by step_inv Hstep.
  - left. by step_inv Hstep.
  - left. by step_inv Hstep.
  - left. apply step_Handoff in Hstep as (d & f & s1 & _ & _ & Hrecv & ->).
    apply receive_effect in Hrecv as (_ & _ & _ & Hl1 & _).
    rewrite <- Hl1. apply acceptLoop_sent_effect.
  - left. by step_inv Hstep.
Qed.

(** Contexts are cancelled once. *)
Lemma step_context a s s' c cause :
  step a s = Some s' → contexts s !! c = Some cause → contexts s' !! c = Some cause.
Proof.
  intros Hstep Hc. destruct a as [dt|c' cause'|g' k|g'|g' e| |d|g'|].
  - by step_inv Hstep.
  - step_inv Hstep. rewrite lookup_insert_ne; [done|]. congruence.
  - by step_inv Hstep.
  - apply step_Run in Hstep as (f & _ & Hf).
    apply run_frame_effect in Hf as (_ & _ & -> & _). done.
  - by step_inv Hstep.
  - by step_inv Hstep.
  - by step_inv Hstep.
  - apply step_Handoff in Hstep as (d & f & s1 & _ & _ & Hrecv & ->).
    apply receive_effect in Hrecv as (_ & _ & Hc1 & _).
    destruct (acceptLoop_sent_effect d s1) as (_ & _ & -> & _). by rewrite Hc1.
  - by step_inv Hstep.
Qed.

(** The done-signal is closed once and for all. *)
Lemma step_doneCh a s s' :
  step a s = Some s' → doneCh (lst s) = true → doneCh (lst s') = true.
Proof.
  intros Hstep Hd. destruct a as [dt|c cause|g' k|g'|g' e| |d|g'|].
  - by step_inv Hstep.
  - by step_inv Hstep.
  - by step_inv Hstep.
  - apply step_Run in Hstep as (f & _ & Hf).
    apply run_frame_effect in Hf. naive_solver.
  - by step_inv Hstep.
  - by step_inv Hstep.
  - by step_inv Hstep.
  - apply step_Handoff in Hstep as (d & f & s1 & _ & _ & Hrecv & ->).
    apply receive_effect in Hrecv as (_ & _ & _ & Hl1 & _).
    destruct (acceptLoop_sent_effect d s1) as (_ & _ & _ & _ & -> & _).
    by rewrite Hl1.
  - by step_inv Hstep.
Qed.

(** Once the pump has returned it stays so: it enters the dtls listener's
    [Accept] no more and sends nothing more. *)
Lemma step_pump_returned a s s' :
  step a s = Some s' → pump s = PumpReturned →
  pump s' = PumpReturned
  ∧ accept_calls (listener (lst s')) = accept_calls (listener (lst s))
  ∧ accepted (listener (lst s')) = accepted (listener (lst s))
  ∧ connCh (lst s') = connCh (lst s)
  ∧ ∀ g, a ≠ Handoff g.
Proof.
  intros Hstep Hp. destruct a as [dt|c cause|g' k|g'|g' e| |d|g'|].
  - by step_inv Hstep.
  - by step_inv Hstep.
  - by step_inv Hstep.
  - apply step_Run in Hstep as (f & _ & Hf).
    apply run_frame_effect in Hf as (_ & -> & _ & _ & -> & _ & _ & -> & _). done.
  - by step_inv Hstep.
  - step_inv Hstep.
  - step_inv Hstep.
  - apply step_Handoff in Hstep as (d & f & s1 & ? & _). congruence.
  - step_inv Hstep.
Qed.

Lemma run_pump_returned sched s s' :
  run sched s = Some s' → pump s = PumpReturned →
  pump s' = PumpReturned
  ∧ accept_calls (listener (lst s')) = accept_calls (listener (lst s))
  ∧ accepted (listener (lst s')) = accepted (listener (lst s))
  ∧ connCh (lst s') = connCh (lst s)
  ∧ ∀ g, Handoff g ∉ sched.
Proof.
  revert s. induction sched as [|a sched IH]; intros s Hrun Hp.
  - injection Hrun as <-. repeat split; auto. intros g Hg. by apply elem_of_nil in Hg.
  - apply run_cons in Hrun as (s1 & Hstep & Hrun).
    destruct (step_pump_returned _ _ _ Hstep Hp) as (Hp1 & E1 & E2 & E3 & Hn).
    destruct (IH _ Hrun Hp1) as (? & ? & ? & ? & Hn').
    repeat split; try congruence.
    intros g [Heq|Hg]%elem_of_cons; [by eapply Hn|by eapply Hn'].
Qed.

Lemma run_doneCh sched s s' :
  run sched s = Some s' → doneCh (lst s) = true → doneCh (lst s') = true.
Proof.
  revert s. induction sched as [|a sched IH]; intros s Hrun Hd.
  - by injection Hrun as <-.
  - apply run_cons in Hrun as (s1 & Hstep & Hrun). eauto using step_doneCh.
Qed.

(** ** Calls *)

Lemma step_Enter g c s :
  free g s = true → step (Enter g c) s = Some (with_frame g (enter c) s).
Proof.
  unfold free. simpl. destruct (goroutines s !! g) as [[]|]; done.
Qed.

Lemma step_Run_frame g f s :
  goroutines s !! g = Some f → step (Run g) s = run_frame g f s.
Proof. simpl. by intros ->. Qed.

Lemma step_ListenerClosed g e s :
  goroutines s !! g = Some (InClose CloseListener) →
  step (ListenerClosed g e) s =
    Some (with_frame g (InClose (CloseDone e))
            (with_lst (with_listener
               (listener_close_called closeGrace (listener (lst s))) (lst s)) s)).
Proof. simpl. by intros ->. Qed.

(** ** SetDeadline *)

(** C8: for every time value [t], [SetDeadline(t)] returns a nil error,
    and all it does is store [t] as the deadline: the rest of the listener,
    the clock, the pump and the contexts are as before, and the next
    [Accept] reads [t]. *)
Theorem SetDeadline_stores_and_never_fails (t : Time) (g : nat) (s : state) :
  free g s = true →
  ∃ s', run [Enter g (CallSetDeadline t); Run g] s = Some s'
    ∧ goroutines s' !! g = Some (Returned (RErr None))
    ∧ deadline (lst s') = Some t
    ∧ listener (lst s') = listener (lst s)
    ∧ heartBeat (lst s') = heartBeat (lst s)
    ∧ wg (lst s') = wg (lst s)
    ∧ doneCh (lst s') = doneCh (lst s)
    ∧ connCh (lst s') = connCh (lst s)
    ∧ now s' = now s ∧ pump s' = pump s ∧ contexts s' = contexts s
    ∧ (∀ g', g' ≠ g → goroutines s' !! g' = goroutines s !! g')
    ∧ (∀ now', Accept now' (lst s') AcceptLoad =
         if IsZero t then Next AcceptRecv else Next (AcceptArm t)).
Proof.
  intros Hfree. eexists. split.
  - cbn [run]. rewrite (step_Enter _ _ _ Hfree).
    rewrite (step_Run_frame g (InSetDeadline t)) by apply lookup_with_frame_eq.
    simpl. reflexivity.
  - simpl. rewrite lookup_insert_eq. repeat split; try done.
    intros g' Hg'. by rewrite !lookup_insert_ne.
Qed.

(** ** AcceptWithContext on a cancelled context *)

Lemma AcceptWithContext_check_fired g c cause s :
  goroutines s !! g = Some (InAcceptWithContext c CtxCheck) →
  contexts s !! c = Some cause →
  step (Run g) s =
    Some (with_frame g (Returned (RConn (None, acceptFailed <$> cause))) s).
Proof.
  intros Hg Hc. rewrite (step_Run_frame _ _ _ Hg). simpl. rewrite Hc.
  by destruct cause.
Qed.

(** C1 (amended): when the context's [Done()] has already fired,
    [AcceptWithContext] returns at once, without touching the listener.
    Whenever [ctx.Err()] is non-nil it returns no connection and the error
    [fmt.Errorf("cannot accept connections: %v", ctx.Err())], which wraps
    the cause; that is the case of every context that honours the
    interface, one cancelled by its cancel function included.  It returns
    [(nil, nil)] exactly when [ctx.Err()] is nil. *)
Theorem AcceptWithContext_cancelled (g c : nat) (cause : option error) (s : state) :
  free g s = true →
  contexts s !! c = Some cause →
  ∃ s' r, run [Enter g (CallAcceptWithContext c); Run g] s = Some s'
    ∧ goroutines s' !! g = Some (Returned (RConn (None, r)))
    ∧ (∀ e, cause = Some e →
         r = Some (Errorf "cannot accept connections: %v" [e]))
    ∧ (honours_Context cause = true →
         ∃ e, cause = Some e
           ∧ r = Some (Errorf "cannot accept connections: %v" [e]))
    ∧ (r = None ↔ cause = None)
    ∧ lst s' = lst s ∧ now s' = now s ∧ pump s' = pump s.
Proof.
  intros Hfree Hc.
  exists (with_frame g (Returned (RConn
            (None, (λ e, Errorf "cannot accept connections: %v" [e]) <$> cause)))
            (with_frame g (enter (CallAcceptWithContext c)) s)),
    ((λ e, Errorf "cannot accept connections: %v" [e]) <$> cause).
  split.
  - cbn [run]. rewrite (step_Enter _ _ _ Hfree).
    rewrite (AcceptWithContext_check_fired g c cause);
      [reflexivity|apply lookup_with_frame_eq|done].
  - split; [apply lookup_with_frame_eq|].
    destruct cause as [e|]; simpl.
    + split; [by intros e' [= <-]|]. split; [eauto|]. done.
    + done.
Qed.

(** ** Accept *)

Lemma Sub_exact t u :
  minDuration ≤ t - u ≤ maxDuration → Sub t u = t - u.
Proof.
  unfold Sub. intros [Hlo Hhi].
  destruct (Z.ltb_spec (t - u) minDuration); [lia|].
  destruct (Z.ltb_spec maxDuration (t - u)); [lia|done].
Qed.

Lemma Sub_past t u : t ≤ u → Sub t u ≤ 0.
Proof.
  unfold Sub, minDuration, maxDuration. intros Htu.
  destruct (Z.ltb_spec (t - u) (- 2 ^ 63)); [lia|].
  destruct (Z.ltb_spec (2 ^ 63 - 1) (t - u)); lia.
Qed.

Lemma After_past now deadline :
  deadline ≤ now → After now (Sub deadline now) = now.
Proof. intros Hd%Sub_past. unfold After. lia. Qed.


(** The frame of a goroutine changes only by its own actions. *)
Lemma returned_stays g v a s s' :
  goroutines s !! g = Some (Returned v) → step a s = Some s' →
  (∀ c, a ≠ Enter g c) →
  goroutines s' !! g = Some (Returned v).
Proof.
  intros Hg Hstep Ha.
  destruct (decide (actor a = Some g)) as [Hact|Hact].
  - destruct a; simplify_eq/=.
    + by destruct (Ha c).
    + by rewrite Hg in Hstep.
    + by rewrite Hg in Hstep.
    + apply step_Handoff in Hstep as (d & f & s1 & _ & Hf & Hrecv & _).
      by simplify_eq/=.
  - by rewrite (step_other_frame _ _ _ _ Hstep Hact).
Qed.

Lemma returned_stays_run g v sched s s' :
  goroutines s !! g = Some (Returned v) → run sched s = Some s' →
  same_call g sched = true →
  goroutines s' !! g = Some (Returned v).
Proof.
  revert s. induction sched as [|a sched IH]; intros s Hg Hrun Hsame.
  - by injection Hrun as <-.
  - apply run_cons in Hrun as (s1 & Hstep & Hrun).
    apply same_call_cons in Hsame as [Ha Hsame].
    eauto using returned_stays.
Qed.

Lemma step_connCh a s s' d :
  step a s = Some s' → d ∈ connCh (lst s) → d ∈ connCh (lst s').
Proof.
  intros Hstep Hd. destruct a as [dt|c cause|g' k|g'|g' e| |d'|g'|].
  - by step_inv Hstep.
  - by step_inv Hstep.
  - by step_inv Hstep.
  - apply step_Run in Hstep as (f & _ & Hf).
    apply run_frame_effect in Hf as (_ & _ & _ & _ & _ & _ & _ & -> & _). done.
  - by step_inv Hstep.
  - by step_inv Hstep.
  - by step_inv Hstep.
  - apply step_Handoff in Hstep as (d' & f & s1 & _ & _ & Hrecv & ->).
    apply receive_effect in Hrecv as (_ & _ & _ & Hl1 & _).
    destruct (acceptLoop_sent_effect d' s1) as (_ & _ & _ & _ & _ & _ & -> & _).
    rewrite Hl1. apply elem_of_app. by left.
  - by step_inv Hstep.
Qed.

Lemma run_connCh sched s s' d :
  run sched s = Some s' → d ∈ connCh (lst s) → d ∈ connCh (lst s').
Proof.
  revert s. induction sched as [|a sched IH]; intros s Hrun Hd.
  - by injection Hrun as <-.
  - apply run_cons in Hrun as (s1 & Hstep & Hrun). eauto using step_connCh.
Qed.

(** Facts that survive steps and runs. *)
Create HintDb listener discriminated.
#[local] Hint Resolve step_doneCh run_doneCh step_connCh run_connCh
  returned_stays returned_stays_run step_context reachable_step reachable_run
  : listener.

(** A goroutine in [Accept]'s select receives what the pump offers. *)
Lemma Handoff_Accept g pc d s :
  goroutines s !! g = Some (InAccept pc) → receiving pc = true →
  pump s = PumpSelect d →
  ∃ s', step (Handoff g) s = Some s'
    ∧ goroutines s' !! g = Some (Returned (RConn (Accept_recv d)))
    ∧ connCh (lst s') = connCh (lst s) ++ [d]
    ∧ pump s' = match err d with Some _ => PumpReturned | None => PumpCall end
    ∧ now s' = now s ∧ deadline (lst s') = deadline (lst s).
Proof.
  intros Hg Hpc Hp. simpl. rewrite Hp, Hg. simpl. rewrite Hpc.
  eexists. split; [done|].
  destruct (acceptLoop_sent_effect d
    (with_frame g (Returned (RConn (Accept_recv d))) s))
    as (-> & -> & _ & -> & _ & _ & -> & ->).
  simpl. by rewrite lookup_insert_eq.
Qed.

(** One step seen from a goroutine waiting in the select without timer. *)
Lemma Accept_recv_step g a s s' :
  goroutines s !! g = Some (InAccept AcceptRecv) → step a s = Some s' →
  goroutines s' !! g = Some (InAccept AcceptRecv)
  ∨ (a = Handoff g ∧ ∃ d, d ∈ connCh (lst s')
       ∧ goroutines s' !! g = Some (Returned (RConn (Accept_recv d)))).
Proof.
  intros Hg Hstep.
  destruct (decide (actor a = Some g)) as [Hact|Hact].
  - destruct a; simpl in Hact; try discriminate; injection Hact as ->.
    + simpl in Hstep. by rewrite Hg in Hstep.
    + simpl in Hstep. by rewrite Hg in Hstep.
    + simpl in Hstep. by rewrite Hg in Hstep.
    + right. split; [done|].
      destruct (step_Handoff _ _ _ Hstep) as (d & _ & _ & Hp & _).
      destruct (Handoff_Accept g AcceptRecv d s Hg eq_refl Hp)
        as (s2 & Hs2 & Hg2 & Hc2 & _).
      rewrite Hs2 in Hstep. injection Hstep as <-.
      exists d. split; [|done]. rewrite Hc2. apply elem_of_app. right.
      apply list_elem_of_here.
  - left. by rewrite (step_other_frame _ _ _ _ Hstep Hact).
Qed.

Lemma Accept_recv_run g sched s s' :
  goroutines s !! g = Some (InAccept AcceptRecv) → run sched s = Some s' →
  same_call g sched = true →
  goroutines s' !! g = Some (InAccept AcceptRecv)
  ∨ (Handoff g ∈ sched ∧ ∃ d, d ∈ connCh (lst s')
       ∧ goroutines s' !! g = Some (Returned (RConn (Accept_recv d)))).
Proof.
  revert s. induction sched as [|a sched IH]; intros s Hg Hrun Hsame.
  - injection Hrun as <-. by left.
  - apply run_cons in Hrun as (s1 & Hstep & Hrun).
    apply same_call_cons in Hsame as [Ha Hsame].
    destruct (Accept_recv_step _ _ _ _ Hg Hstep) as [Hg1|(-> & d & Hd & Hg1)].
    + destruct (IH _ Hg1 Hrun Hsame) as [?|(? & ?)]; [by left|right].
      split; [by apply elem_of_cons; right|done].
    + right. split; [by apply elem_of_cons; left|]. exists d.
      eauto with listener.
Qed.

(** From the call of [Accept] to its select. *)
Lemma Accept_enters_recv g s :
  free g s = true →
  (deadline (lst s) = None ∨ deadline (lst s) = Some 0) →
  run [Enter g CallAccept; Run g] s =
    Some (with_frame g (InAccept AcceptRecv) (with_frame g (InAccept AcceptLoad) s)).
Proof.
  intros Hfree Hd. cbn [run]. rewrite (step_Enter _ _ _ Hfree).
  rewrite (step_Run_frame g (InAccept AcceptLoad)) by apply lookup_with_frame_eq.
  simpl. by destruct Hd as [-> | ->].
Qed.

Lemma Accept_enters_select g dl s :
  free g s = true → deadline (lst s) = Some dl → dl ≠ 0 →
  run [Enter g CallAccept; Run g; Run g] s =
    Some (with_frame g (InAccept (AcceptSelect (After (now s) (Sub dl (now s)))))
            (with_frame g (InAccept (AcceptArm dl))
               (with_frame g (InAccept AcceptLoad) s))).
Proof.
  intros Hfree Hd Hdl. cbn [run]. rewrite (step_Enter _ _ _ Hfree).
  rewrite (step_Run_frame g (InAccept AcceptLoad)) by apply lookup_with_frame_eq.
  simpl run_frame. rewrite Hd. unfold IsZero.
  destruct (Z.eqb_spec dl 0) as [|_]; [done|]. cbn [resume].
  rewrite (step_Run_frame g (InAccept (AcceptArm dl))) by apply lookup_with_frame_eq.
  done.
Qed.

(** The timer case of the second select: line 125-126. *)
Lemma Accept_timer g fire s :
  goroutines s !! g = Some (InAccept (AcceptSelect fire)) →
  step (Run g) s =
    if fire <=? now s
    then Some (with_frame g (Returned (RConn (None, Some timeoutError))) s)
    else None.
Proof.
  intros Hg. rewrite (step_Run_frame _ _ _ Hg). simpl. by destruct (fire <=? now s).
Qed.

(** C4: with the deadline unset (never stored, or the zero time),
    [Accept] goes to the select that has no timer and stays blocked
    there, whatever the clock does, until the pump hands it a value over
    [connCh]; it then returns the connection or the pump's error, so what
    it returns never comes from a timeout. *)
Theorem Accept_without_deadline_blocks_until_handoff (g : nat) (s : state) :
  free g s = true →
  (deadline (lst s) = None ∨ deadline (lst s) = Some 0) →
  ∃ s1, run [Enter g CallAccept; Run g] s = Some s1
    ∧ goroutines s1 !! g = Some (InAccept AcceptRecv)
    ∧ now s1 = now s ∧ lst s1 = lst s ∧ pump s1 = pump s
    ∧ (∀ sched s2, run sched s1 = Some s2 → same_call g sched = true →
         (goroutines s2 !! g = Some (InAccept AcceptRecv)
          ∧ step (Run g) s2 = None
          ∧ ∀ d, pump s2 = PumpSelect d →
              ∃ s3, step (Handoff g) s2 = Some s3
                ∧ goroutines s3 !! g = Some (Returned (RConn (Accept_recv d))))
         ∨ (Handoff g ∈ sched
            ∧ ∃ d, d ∈ connCh (lst s2)
                ∧ goroutines s2 !! g = Some (Returned (RConn (Accept_recv d)))
                ∧ Accept_recv d =
                    match err d with
                    | Some e => (None, Some e)
                    | None => (Some (NewConnDTLS (conn d)), None)
                    end)).
Proof.
  intros Hfree Hd. eexists. split; [by apply Accept_enters_recv|].
  split; [apply lookup_with_frame_eq|]. repeat split; try done.
  intros sched s2 Hrun Hsame.
  destruct (Accept_recv_run g sched _ s2 (lookup_with_frame_eq _ _ _) Hrun Hsame)
    as [Hg2|(Hin & d & Hd2 & Hg2)].
  - left. split; [done|]. split.
    + by rewrite (step_Run_frame _ _ _ Hg2).
    + intros d Hp.
      destruct (Handoff_Accept g AcceptRecv d s2 Hg2 eq_refl Hp) as (s3 & ? & ? & _).
      eauto.
  - right. split; [done|]. exists d. done.
Qed.


(** ** How frames evolve *)

Lemma run_frame_follows g f s s' :
  run_frame g f s = Some s' →
  ∃ f', goroutines s' = <[g := f']> (goroutines s) ∧ follows f f'.
Proof.
  intros Hrun. step_inv Hrun; eexists; (split; [reflexivity|]); simpl; eauto.
Qed.

Lemma receive_follows g f d s s' :
  receive g f d s = Some s' →
  ∃ f', goroutines s' = <[g := f']> (goroutines s) ∧ follows f f'.
Proof.
  intros Hrun. step_inv Hrun; eexists; (split; [reflexivity|]); simpl; eauto.
Qed.

Lemma step_frame a s s' g :
  step a s = Some s' →
  goroutines s' !! g = goroutines s !! g
  ∨ (∃ c, a = Enter g c ∧ goroutines s' !! g = Some (enter c))
  ∨ (∃ f f', goroutines s !! g = Some f ∧ goroutines s' !! g = Some f'
       ∧ follows f f' ∧ ∀ c, a ≠ Enter g c).
Proof.
  intros Hstep.
  destruct (decide (actor a = Some g)) as [Hact|Hact];
    [|left; by apply (step_other_frame a)].
  right. destruct a; simpl in Hact; try discriminate; injection Hact as ->.
  - left. exists c. split; [done|]. step_inv Hstep; apply lookup_insert_eq.
  - right. apply step_Run in Hstep as (f & Hg & Hf).
    apply run_frame_follows in Hf as (f' & Hg' & Hfol).
    exists f, f'. rewrite Hg', lookup_insert_eq. done.
  - right. step_inv Hstep. eexists _, _. rewrite lookup_insert_eq.
    repeat split; simpl; eauto.
  - right. apply step_Handoff in Hstep as (d & f & s1 & _ & Hg & Hrecv & ->).
    apply receive_follows in Hrecv as (f' & Hg' & Hfol).
    destruct (acceptLoop_sent_effect d s1) as (_ & -> & _).
    exists f, f'. rewrite Hg', lookup_insert_eq. done.
Qed.

Lemma follows_quiet f f' : follows f f' → quiet f = true → quiet f' = true.
Proof. destruct f; simpl; naive_solver. Qed.

Lemma all_quiet_step a s s' :
  all_quiet s → quiet_action a = true → step a s = Some s' → all_quiet s'.
Proof.
  intros Hq Ha Hstep g f' Hg'.
  destruct (step_frame a s s' g Hstep) as [E|[(c & -> & E)|(f & f2 & Hg & E & Hfol & _)]].
  - rewrite E in Hg'. by apply (Hq g).
  - rewrite E in Hg'. injection Hg' as <-. by destruct c.
  - rewrite E in Hg'. injection Hg' as <-. eapply follows_quiet; [done|].
    by apply (Hq g).
Qed.

Lemma all_quiet_deadline a s s' :
  all_quiet s → step a s = Some s' → deadline (lst s') = deadline (lst s).
Proof.
  intros Hq Hstep.
  destruct (step_deadline _ _ _ Hstep) as [|(g & f & -> & Hg & Hst)]; [done|].
  specialize (Hq g f Hg). destruct f as [| |c []| | |]; done.
Qed.

Lemma all_quiet_run sched s s' :
  all_quiet s → forallb quiet_action sched = true → run sched s = Some s' →
  all_quiet s' ∧ deadline (lst s') = deadline (lst s).
Proof.
  revert s. induction sched as [|a sched IH]; intros s Hq Hsched Hrun.
  - by injection Hrun as <-.
  - apply run_cons in Hrun as (s1 & Hstep & Hrun).
    simpl in Hsched. apply andb_prop in Hsched as [Ha Hsched].
    destruct (IH s1) as [? ->]; eauto using all_quiet_step.
    split; [done|]. by apply (all_quiet_deadline a).
Qed.

(** One step seen from a goroutine in [Accept]'s select with a timer. *)
Lemma Accept_select_step g fire a s s' :
  goroutines s !! g = Some (InAccept (AcceptSelect fire)) → step a s = Some s' →
  goroutines s' !! g = Some (InAccept (AcceptSelect fire))
  ∨ (a = Run g ∧ fire ≤ now s
       ∧ goroutines s' !! g = Some (Returned (RConn (None, Some timeoutError))))
  ∨ (a = Handoff g ∧ ∃ d, pump s = PumpSelect d
       ∧ goroutines s' !! g = Some (Returned (RConn (Accept_recv d)))).
Proof.
  intros Hg Hstep.
  destruct (decide (actor a = Some g)) as [Hact|Hact];
    [|left; by rewrite (step_other_frame _ _ _ _ Hstep Hact)].
  right. destruct a; simpl in Hact; try discriminate; injection Hact as ->.
  - simpl in Hstep. by rewrite Hg in Hstep.
  - left. rewrite (Accept_timer _ _ _ Hg) in Hstep.
    destruct (Z.leb_spec fire (now s)); [|done]. injection Hstep as <-.
    split; [done|]. split; [done|]. apply lookup_with_frame_eq.
  - simpl in Hstep. by rewrite Hg in Hstep.
  - right. split; [done|].
    destruct (step_Handoff _ _ _ Hstep) as (d & _ & _ & Hp & _).
    destruct (Handoff_Accept g (AcceptSelect fire) d s Hg eq_refl Hp)
      as (s2 & Hs2 & Hg2 & _).
    rewrite Hs2 in Hstep. injection Hstep as <-. eauto.
Qed.

(** The clock never goes back. *)
Lemma step_now a s s' : step a s = Some s' → now s ≤ now s'.
Proof.
  intros Hstep. destruct a as [dt|c cause|g' k|g'|g' e| |d|g'|].
  - step_inv Hstep. lia.
  - by step_inv Hstep.
  - by step_inv Hstep.
  - apply step_Run in Hstep as (f & _ & Hf).
    apply run_frame_effect in Hf as (-> & _). done.
  - by step_inv Hstep.
  - by step_inv Hstep.
  - by step_inv Hstep.
  - apply step_Handoff in Hstep as (d & f & s1 & _ & _ & Hrecv & ->).
    apply receive_effect in Hrecv as (<- & _).
    destruct (acceptLoop_sent_effect d s1) as (-> & _). done.
  - by step_inv Hstep.
Qed.

Lemma run_now sched s s' : run sched s = Some s' → now s ≤ now s'.
Proof.
  revert s. induction sched as [|a sched IH]; intros s Hrun.
  - by injection Hrun as <-.
  - apply run_cons in Hrun as (s1 & Hstep%step_now & Hrun%IH). lia.
Qed.

(** A goroutine in the select with a timer leaves it through the timer
    case or through the channel case, and through nothing else. *)
Lemma Accept_select_run g fire sched s s' :
  goroutines s !! g = Some (InAccept (AcceptSelect fire)) →
  run sched s = Some s' → same_call g sched = true →
  goroutines s' !! g = Some (InAccept (AcceptSelect fire))
  ∨ (Run g ∈ sched
     ∧ goroutines s' !! g = Some (Returned (RConn (None, Some timeoutError))))
  ∨ (Handoff g ∈ sched
     ∧ ∃ d, d ∈ connCh (lst s')
         ∧ goroutines s' !! g = Some (Returned (RConn (Accept_recv d)))).
Proof.
  revert s. induction sched as [|a sched IH]; intros s Hg Hrun Hsame.
  - injection Hrun as <-. by left.
  - apply run_cons in Hrun as (s1 & Hstep & Hrun).
    apply same_call_cons in Hsame as [Ha Hsame].
    destruct (Accept_select_step _ _ _ _ _ Hg Hstep)
      as [Hg1|[(-> & _ & Hg1)|(-> & d & Hp & Hg1)]].
    + destruct (IH _ Hg1 Hrun Hsame) as [?|[[? ?]|[? ?]]]; [by left|right..].
      * left. split; [by apply elem_of_cons; right|done].
      * right. split; [by apply elem_of_cons; right|done].
    + right. left. split; [by apply elem_of_cons; left|].
      eauto with listener.
    + right. right. split; [by apply elem_of_cons; left|]. exists d.
      split; [|eauto with listener].
      apply (run_connCh sched s1); [done|].
      destruct (Handoff_Accept g (AcceptSelect fire) d s Hg eq_refl Hp)
        as (s2 & Hs2 & _ & Hc2 & _).
      rewrite Hs2 in Hstep. injection Hstep as <-. rewrite Hc2.
      apply elem_of_app. right. apply list_elem_of_here.
Qed.

(** ** The deadline across calls of Accept *)

(** C9 (amended): [Accept] never writes the deadline; as long as the
    callers only run [Accept] (or [Close]), the stored deadline stays what
    the last [SetDeadline] made it, across any number of calls.  Once
    that instant has passed, every further [Accept] finds its timer ready
    as soon as it reaches the select: it can return the timeout error with
    no time passing, and it returns anything else only by receiving a
    value from the pump over [connCh]. *)
Theorem deadline_persists_across_Accept
    (s : state) (sched : list action) (s' : state) :
  all_quiet s →
  forallb quiet_action sched = true →
  run sched s = Some s' →
  deadline (lst s') = deadline (lst s)
  ∧ ∀ g dl, deadline (lst s') = Some dl → dl ≠ 0 → dl ≤ now s' →
      free g s' = true →
      ∃ s1 s2, run [Enter g CallAccept; Run g; Run g] s' = Some s1
        ∧ step (Run g) s1 = Some s2
        ∧ goroutines s2 !! g = Some (Returned (RConn (None, Some timeoutError)))
        ∧ now s2 = now s'
        ∧ deadline (lst s2) = deadline (lst s)
        ∧ ∀ sched3 s3, run sched3 s1 = Some s3 → same_call g sched3 = true →
            (goroutines s3 !! g = goroutines s1 !! g
             ∧ ∃ s4, step (Run g) s3 = Some s4
                 ∧ goroutines s4 !! g =
                     Some (Returned (RConn (None, Some timeoutError))))
            ∨ goroutines s3 !! g =
                Some (Returned (RConn (None, Some timeoutError)))
            ∨ (Handoff g ∈ sched3
               ∧ ∃ d, d ∈ connCh (lst s3)
                   ∧ goroutines s3 !! g = Some (Returned (RConn (Accept_recv d)))).
Proof.
  intros Hq Hsched Hrun.
  destruct (all_quiet_run _ _ _ Hq Hsched Hrun) as [Hq' Hd']. split; [done|].
  intros g dl Hdl Hnz Hpast Hfree.
  pose proof (Accept_enters_select g dl s' Hfree Hdl Hnz) as Hsel.
  rewrite After_past in Hsel by done.
  set (s1 := with_frame g (InAccept (AcceptSelect (now s')))
               (with_frame g (InAccept (AcceptArm dl))
                  (with_frame g (InAccept AcceptLoad) s'))) in *.
  assert (Hg1 : goroutines s1 !! g = Some (InAccept (AcceptSelect (now s'))))
    by apply lookup_with_frame_eq.
  exists s1, (with_frame g (Returned (RConn (None, Some timeoutError))) s1).
  split; [done|]. split.
  { rewrite (Accept_timer _ _ _ Hg1). simpl. by rewrite Z.leb_refl. }
  split; [apply lookup_with_frame_eq|]. split; [done|]. split; [by rewrite <- Hd'|].
  intros sched3 s3 Hrun3 Hsame3.
  destruct (Accept_select_run _ _ _ _ _ Hg1 Hrun3 Hsame3)
    as [Hg3|[[Hin Hg3]|[Hin Hg3]]].
  - left. split; [by rewrite Hg3, Hg1|].
    rewrite (Accept_timer _ _ _ Hg3).
    pose proof (run_now _ _ _ Hrun3) as Hn. simpl in Hn.
    destruct (Z.leb_spec (now s') (now s3)); [|lia].
    eexists. split; [done|]. apply lookup_with_frame_eq.
  - right. by left.
  - right. by right.
Qed.

(** ** The accept pump *)

(** One step seen from the pump while it offers [d]: it still offers [d],
    or it has sent [d], or it has left through [<-l.doneCh]. *)
Lemma pump_select_step d a s s' :
  pump s = PumpSelect d → step a s = Some s' →
  accept_calls (listener (lst s')) = accept_calls (listener (lst s))
  ∧ ((pump s' = PumpSelect d ∧ connCh (lst s') = connCh (lst s)
      ∧ (∀ g, a ≠ Handoff g) ∧ a ≠ PumpSeesDone)
     ∨ (∃ g, a = Handoff g
          ∧ connCh (lst s') = connCh (lst s) ++ [d]
          ∧ pump s' = match err d with Some _ => PumpReturned | None => PumpCall end)
     ∨ (a = PumpSeesDone ∧ doneCh (lst s) = true
          ∧ connCh (lst s') = connCh (lst s) ∧ pump s' = PumpReturned)).
Proof.
  intros Hp Hstep. destruct a as [dt|c cause|g' k|g'|g' e| |d'|g'|].
  - step_inv Hstep. split; [done|]. by left.
  - step_inv Hstep; (split; [done|]); by left.
  - step_inv Hstep; (split; [done|]); by left.
  - apply step_Run in Hstep as (f & _ & Hf).
    apply run_frame_effect in Hf as (_ & -> & _ & _ & -> & _ & _ & -> & _).
    split; [done|]. by left.
  - step_inv Hstep; (split; [done|]); by left.
  - step_inv Hstep.
  - step_inv Hstep.
  - apply step_Handoff in Hstep as (d' & f & s1 & Hp' & _ & Hrecv & ->).
    assert (d' = d) as -> by congruence.
    apply receive_effect in Hrecv as (_ & _ & _ & Hl1 & _).
    destruct (acceptLoop_sent_effect d s1) as (_ & _ & _ & _ & _ & -> & -> & ->).
    rewrite Hl1. split; [done|]. right. left. eauto.
  - step_inv Hstep. split; [done|]. right. by right.
Qed.

(** An error on offer: whatever happens, the pump still offers it or has
    returned, and the dtls listener's [Accept] is not entered again. *)
Lemma pump_error_run d e sched s s' :
  pump s = PumpSelect d → err d = Some e → run sched s = Some s' →
  accept_calls (listener (lst s')) = accept_calls (listener (lst s))
  ∧ ((pump s' = PumpSelect d ∧ connCh (lst s') = connCh (lst s))
     ∨ (pump s' = PumpReturned
        ∧ (connCh (lst s') = connCh (lst s) ++ [d]
           ∨ (connCh (lst s') = connCh (lst s) ∧ doneCh (lst s') = true)))).
Proof.
  revert s. induction sched as [|a sched IH]; intros s Hp He Hrun.
  - injection Hrun as <-. split; [done|]. by left.
  - apply run_cons in Hrun as (s1 & Hstep & Hrun).
    destruct (pump_select_step _ _ _ _ Hp Hstep)
      as (Hc & [(Hp1 & Hs1 & _)|[(g & -> & Hs1 & Hp1)|(-> & Hd & Hs1 & Hp1)]]).
    + destruct (IH _ Hp1 He Hrun) as [-> ?]. rewrite Hs1 in *. done.
    + rewrite He in Hp1.
      destruct (run_pump_returned _ _ _ Hrun Hp1) as (? & -> & _ & -> & _).
      split; [done|]. right. rewrite Hs1. eauto.
    + destruct (run_pump_returned _ _ _ Hrun Hp1) as (? & -> & _ & -> & _).
      split; [done|]. right. rewrite Hs1. split; [done|]. right. split; [done|].
      eapply run_doneCh; [done|]. by apply (step_doneCh PumpSeesDone s).
Qed.

(** The pump's next move is there to be made: at line 33 it can enter the
    dtls listener's [Accept], whose every outcome it takes to the select;
    in the select the case [<-l.doneCh] can run exactly when [doneCh] is
    closed, and the send can run exactly towards a goroutine that stands
    in a select with the case [<-l.connCh]; after its return nothing of
    the pump can run. *)
Lemma acceptLoop_enabled s :
  (pump s = PumpCall →
     ∃ s', step PumpRun s = Some s' ∧ pump s' = PumpBlocked
       ∧ accept_calls (listener (lst s')) = S (accept_calls (listener (lst s))))
  ∧ (pump s = PumpBlocked →
       ∀ d, ∃ s', step (ListenerAccepted d) s = Some s' ∧ pump s' = PumpSelect d
         ∧ accepted (listener (lst s')) = accepted (listener (lst s)) ++ [d]
         ∧ accept_calls (listener (lst s')) = accept_calls (listener (lst s)))
  ∧ (∀ d, pump s = PumpSelect d →
       (doneCh (lst s) = true →
          ∃ s', step PumpSeesDone s = Some s' ∧ pump s' = PumpReturned
            ∧ connCh (lst s') = connCh (lst s)
            ∧ wg (lst s') = wg (lst s) - 1)
       ∧ (doneCh (lst s) = false → step PumpSeesDone s = None)
       ∧ (∀ g pc, goroutines s !! g = Some (InAccept pc) → receiving pc = true →
            ∃ s', step (Handoff g) s = Some s'
              ∧ goroutines s' !! g = Some (Returned (RConn (Accept_recv d)))
              ∧ connCh (lst s') = connCh (lst s) ++ [d]
              ∧ pump s' =
                  match err d with Some _ => PumpReturned | None => PumpCall end)
       ∧ (∀ g c pc,
            goroutines s !! g = Some (InAcceptWithContext c (CtxAccept pc)) →
            receiving pc = true →
            ∃ s', step (Handoff g) s = Some s'
              ∧ connCh (lst s') = connCh (lst s) ++ [d]
              ∧ pump s' =
                  match err d with Some _ => PumpReturned | None => PumpCall end)
       ∧ (∀ g, step (Handoff g) s ≠ None →
            ∃ pc, receiving pc = true
              ∧ (goroutines s !! g = Some (InAccept pc)
                 ∨ ∃ c, goroutines s !! g
                        = Some (InAcceptWithContext c (CtxAccept pc)))))
  ∧ (pump s = PumpReturned →
       step PumpRun s = None ∧ step PumpSeesDone s = None
       ∧ ∀ d g, step (ListenerAccepted d) s = None ∧ step (Handoff g) s = None).
Proof.
  split; [|split; [|split]].
  - intros Hp. simpl. rewrite Hp. eauto.
  - intros Hp d. simpl. rewrite Hp. eauto.
  - intros d Hp. split; [|split; [|split; [|split]]].
    + intros Hd. simpl. rewrite Hp, Hd. eauto.
    + intros Hd. simpl. by rewrite Hp, Hd.
    + intros g pc Hg Hpc.
      destruct (Handoff_Accept g pc d s Hg Hpc Hp) as (s' & ? & ? & ? & ? & _).
      eauto.
    + intros g c pc Hg Hpc. simpl. rewrite Hp, Hg. simpl. rewrite Hpc.
      assert (Hafter : AcceptWithContext_after (Accept_recv d) ≠ Blocked).
      { unfold AcceptWithContext_after, Accept_recv.
        destruct (err d) as [e|]; [destruct (isTemporary e)|]; done. }
      destruct (AcceptWithContext_after (Accept_recv d)) as [pc'|r|]; [| |done];
        simpl; (eexists; split; [reflexivity|]);
        match goal with
        | |- context [acceptLoop_sent ?d ?s1] =>
            destruct (acceptLoop_sent_effect d s1)
              as (_ & _ & _ & _ & _ & _ & -> & ->)
        end; done.
    + intros g Hstep. simpl in Hstep. rewrite Hp in Hstep.
      destruct (goroutines s !! g) as [f|] eqn:Hg; [|done].
      destruct f as [| pc | c [| |pc] | | |]; simpl in Hstep; try done;
        destruct (receiving pc) eqn:Hpc; try done; eauto.
  - intros Hp. simpl. rewrite Hp. done.
Qed.

(** C6: for each outcome of the dtls listener's [Accept] the pump does
    exactly one of two things: it sends the outcome on [connCh], or it
    leaves because [doneCh] is closed.  Both moves are there to be made:
    the send as soon as a goroutine waits for [connCh], the exit as soon
    as [doneCh] is closed, and neither otherwise.  The outcomes sent are
    the outcomes accepted, in order, but for the last one while it is on
    offer or after the pump left through [doneCh].  Only the last value
    sent can be an error, and then the pump has returned; a pump that has
    returned never enters the dtls listener's [Accept] again. *)
Theorem acceptLoop_sends_or_exits_once_per_accept (s : state) :
  reachable s →
  pump_inv s
  ∧ (∀ d a s', pump s = PumpSelect d → step a s = Some s' →
       accept_calls (listener (lst s')) = accept_calls (listener (lst s))
       ∧ ((pump s' = PumpSelect d ∧ connCh (lst s') = connCh (lst s)
           ∧ (∀ g, a ≠ Handoff g) ∧ a ≠ PumpSeesDone)
          ∨ (∃ g, a = Handoff g
               ∧ connCh (lst s') = connCh (lst s) ++ [d]
               ∧ pump s' =
                   match err d with Some _ => PumpReturned | None => PumpCall end)
          ∨ (a = PumpSeesDone ∧ doneCh (lst s) = true
               ∧ connCh (lst s') = connCh (lst s) ∧ pump s' = PumpReturned)))
  ∧ (∀ before d e, connCh (lst s) = before ++ [d] → err d = Some e →
       pump s = PumpReturned)
  ∧ (∀ sched s', pump s = PumpReturned → run sched s = Some s' →
       pump s' = PumpReturned
       ∧ accept_calls (listener (lst s')) = accept_calls (listener (lst s))
       ∧ accepted (listener (lst s')) = accepted (listener (lst s))
       ∧ connCh (lst s') = connCh (lst s))
  ∧ (pump s = PumpCall →
       ∃ s', step PumpRun s = Some s' ∧ pump s' = PumpBlocked
         ∧ accept_calls (listener (lst s')) = S (accept_calls (listener (lst s))))
  ∧ (pump s = PumpBlocked →
       ∀ d, ∃ s', step (ListenerAccepted d) s = Some s' ∧ pump s' = PumpSelect d
         ∧ accepted (listener (lst s')) = accepted (listener (lst s)) ++ [d]
         ∧ accept_calls (listener (lst s')) = accept_calls (listener (lst s)))
  ∧ (∀ d, pump s = PumpSelect d →
       (doneCh (lst s) = true →
          ∃ s', step PumpSeesDone s = Some s' ∧ pump s' = PumpReturned
            ∧ connCh (lst s') = connCh (lst s)
            ∧ wg (lst s') = 0)
       ∧ (doneCh (lst s) = false → step PumpSeesDone s = None)
       ∧ (∀ g pc, goroutines s !! g = Some (InAccept pc) → receiving pc = true →
            ∃ s', step (Handoff g) s = Some s'
              ∧ goroutines s' !! g = Some (Returned (RConn (Accept_recv d)))
              ∧ connCh (lst s') = connCh (lst s) ++ [d]
              ∧ pump s' =
                  match err d with Some _ => PumpReturned | None => PumpCall end)
       ∧ (∀ g c pc,
            goroutines s !! g = Some (InAcceptWithContext c (CtxAccept pc)) →
            receiving pc = true →
            ∃ s', step (Handoff g) s = Some s'
              ∧ connCh (lst s') = connCh (lst s) ++ [d]
              ∧ pump s' =
                  match err d with Some _ => PumpReturned | None => PumpCall end)
       ∧ (∀ g, step (Handoff g) s ≠ None →
            ∃ pc, receiving pc = true
              ∧ (goroutines s !! g = Some (InAccept pc)
                 ∨ ∃ c, goroutines s !! g
                        = Some (InAcceptWithContext c (CtxAccept pc)))))
  ∧ (pump s = PumpReturned →
       step PumpRun s = None ∧ step PumpSeesDone s = None
       ∧ ∀ d g, step (ListenerAccepted d) s = None ∧ step (Handoff g) s = None).
Proof.
  intros Hreach. pose proof (pump_inv_reachable _ Hreach) as Hinv.
  destruct (acceptLoop_enabled s) as (Hcall & Hblocked & Hselect & Hreturned).
  split; [done|]. split; [|split; [|split]].
  - intros d a s'. apply pump_select_step.
  - intros before d e Hsent He. unfold pump_inv in Hinv.
    assert (Hbad : ¬ Forall noerr (connCh (lst s))).
    { rewrite Hsent, Forall_app, Forall_singleton. unfold noerr.
      intros [_ ?]. congruence. }
    destruct (pump s); naive_solver.
  - intros sched s' Hp Hrun.
    destruct (run_pump_returned _ _ _ Hrun Hp) as (? & ? & ? & ? & _). done.
  - split; [done|]. split; [done|]. split; [|done].
    intros d Hp. destruct (Hselect d Hp) as (Hdone & Hopen & Hsend & Hsend' & Honly).
    split; [|done].
    intros Hd. destruct (Hdone Hd) as (s' & ? & ? & ? & Hwg).
    exists s'. split; [done|]. split; [done|]. split; [done|].
    unfold pump_inv in Hinv. rewrite Hp in Hinv.
    destruct Hinv as (_ & _ & _ & Hwg1). lia.
Qed.

(** ** Accept after a fatal error of the dtls listener *)

(** [Accept] returns on its own only from the timer case. *)
Lemma Accept_Done now l pc r :
  Accept now l pc = Done r →
  r = (None, Some timeoutError) ∧ ∃ fire, pc = AcceptSelect fire ∧ fire ≤ now.
Proof.
  destruct pc as [| |dl|fire]; simpl.
  - by destruct (IsZero _).
  - done.
  - done.
  - destruct (Z.leb_spec fire now); [|done]. intros [= <-]. eauto.
Qed.

(** One step seen from a goroutine anywhere in [Accept]. *)
Lemma Accept_step g pc a s s' :
  goroutines s !! g = Some (InAccept pc) → step a s = Some s' →
  (∃ pc', goroutines s' !! g = Some (InAccept pc'))
  ∨ (a = Run g
       ∧ goroutines s' !! g = Some (Returned (RConn (None, Some timeoutError))))
  ∨ (∃ d, a = Handoff g ∧ pump s = PumpSelect d
       ∧ goroutines s' !! g = Some (Returned (RConn (Accept_recv d)))).
Proof.
  intros Hg Hstep.
  destruct (decide (actor a = Some g)) as [Hact|Hact];
    [|left; exists pc; by rewrite (step_other_frame _ _ _ _ Hstep Hact)].
  destruct a; simpl in Hact; try discriminate; injection Hact as ->.
  - simpl in Hstep. by rewrite Hg in Hstep.
  - rewrite (step_Run_frame _ _ _ Hg) in Hstep.
    simpl in Hstep. destruct (Accept (now s) (lst s) pc) as [pc'|r|] eqn:Hacc;
      simplify_eq/=; rewrite lookup_insert_eq; [eauto|].
    apply Accept_Done in Hacc as [-> _]. eauto.
  - simpl in Hstep. by rewrite Hg in Hstep.
  - right. right.
    destruct (step_Handoff _ _ _ Hstep) as (d & f & s1 & Hp & Hf & Hrecv & _).
    assert (f = InAccept pc) as -> by congruence.
    assert (Hpc : receiving pc = true).
    { simpl in Hrecv. by destruct (receiving pc). }
    destruct (Handoff_Accept g pc d s Hg Hpc Hp) as (s2 & Hs2 & Hg2 & _).
    rewrite Hs2 in Hstep. injection Hstep as <-. eauto.
Qed.

(** With the pump gone nothing is ever sent on [connCh]: an [Accept] can
    only come back through its timer. *)
Lemma Accept_run_pump_returned g pc sched s s' :
  pump s = PumpReturned →
  goroutines s !! g = Some (InAccept pc) →
  run sched s = Some s' → same_call g sched = true →
  (∃ pc', goroutines s' !! g = Some (InAccept pc'))
  ∨ goroutines s' !! g = Some (Returned (RConn (None, Some timeoutError))).
Proof.
  revert s pc. induction sched as [|a sched IH]; intros s pc Hp Hg Hrun Hsame.
  - injection Hrun as <-. eauto.
  - apply run_cons in Hrun as (s1 & Hstep & Hrun).
    apply same_call_cons in Hsame as [Ha Hsame].
    destruct (step_pump_returned _ _ _ Hstep Hp) as (Hp1 & _ & _ & _ & Hno).
    destruct (Accept_step _ _ _ _ _ Hg Hstep)
      as [[pc' Hg1]|[[_ Hg1]|(d & -> & _)]].
    + eauto.
    + right. eauto with listener.
    + by destruct (Hno g).
Qed.

(** C2 (amended): an error returned by the dtls listener's [Accept] is
    offered on [connCh] once.  The [Accept] that receives it returns that
    very error, not a timeout, and with that handoff the pump returns;
    until then the pump keeps offering it, unless [doneCh] is closed.
    Either way the dtls listener's [Accept] is not entered again.  Once
    the pump has returned, no later call of [Accept] receives anything:
    if it returns at all, it returns the timeout error. *)
Theorem accept_error_is_forwarded_once (s : state) (d : connData) (e : error) :
  pump s = PumpSelect d → err d = Some e →
  (∀ g pc, goroutines s !! g = Some (InAccept pc) → receiving pc = true →
     ∃ s', step (Handoff g) s = Some s'
       ∧ goroutines s' !! g = Some (Returned (RConn (None, Some e)))
       ∧ pump s' = PumpReturned
       ∧ wg (lst s') = wg (lst s) - 1)
  ∧ (∀ sched s', run sched s = Some s' →
       accept_calls (listener (lst s')) = accept_calls (listener (lst s))
       ∧ ((pump s' = PumpSelect d ∧ connCh (lst s') = connCh (lst s))
          ∨ (pump s' = PumpReturned
             ∧ (connCh (lst s') = connCh (lst s) ++ [d]
                ∨ (connCh (lst s') = connCh (lst s)
                   ∧ doneCh (lst s') = true)))))
  ∧ (∀ sched s' g sched2 s2 v,
       run sched s = Some s' → pump s' = PumpReturned → free g s' = true →
       run (Enter g CallAccept :: sched2) s' = Some s2 →
       same_call g sched2 = true →
       goroutines s2 !! g = Some (Returned v) →
       v = RConn (None, Some timeoutError)).
Proof.
  intros Hp He. split; [|split].
  - intros g pc Hg Hpc.
    destruct (Handoff_Accept g pc d s Hg Hpc Hp) as (s' & Hs' & Hg' & _ & Hp' & _).
    exists s'. unfold Accept_recv in Hg'. rewrite He in Hg', Hp'.
    repeat split; try done.
    simpl in Hs'. rewrite Hp, Hg in Hs'. simpl in Hs'. rewrite Hpc in Hs'.
    injection Hs' as <-. unfold acceptLoop_sent. rewrite He. done.
  - intros sched s' Hrun. by apply (pump_error_run d e sched).
  - intros sched s' g sched2 s2 v _ Hp' Hfree Hrun2 Hsame Hv.
    apply run_cons in Hrun2 as (s1 & Hs1 & Hrun2).
    rewrite (step_Enter _ _ _ Hfree) in Hs1. injection Hs1 as <-.
    destruct (Accept_run_pump_returned g AcceptLoad sched2
                (with_frame g (InAccept AcceptLoad) s') s2 Hp'
                (lookup_with_frame_eq _ _ _) Hrun2 Hsame) as [[pc' Hg2]|Hg2];
      congruence.
Qed.

(** ** AcceptWithContext: retry and propagation *)

Lemma ctx_outcome_step c r a s s' :
  ctx_outcome c s r → step a s = Some s' → ctx_outcome c s' r.
Proof.
  unfold ctx_outcome. intros Hr Hstep.
  destruct Hr as [[? ?]|[(e & ? & ?)|?]]; eauto 8 using step_context.
Qed.

Lemma ctx_outcome_run c r sched s s' :
  ctx_outcome c s r → run sched s = Some s' → ctx_outcome c s' r.
Proof.
  revert s. induction sched as [|a sched IH]; intros s Hr Hrun.
  - by injection Hrun as <-.
  - apply run_cons in Hrun as (s1 & Hstep & Hrun). eauto using ctx_outcome_step.
Qed.

(** Lines 85-91 never hand back what is not a [ctx_outcome]. *)
Lemma AcceptWithContext_after_timeout :
  AcceptWithContext_after (None, Some timeoutError) =
    (if isTemporary timeoutError then Next CtxCheck
     else Done (None, Some (acceptFailed timeoutError))).
Proof. done. Qed.

Lemma AcceptWithContext_after_recv d :
  AcceptWithContext_after (Accept_recv d) =
    match err d with
    | Some e =>
        if isTemporary e then Next CtxCheck
        else Done (None, Some (acceptFailed e))
    | None => Done (Some (NewConnDTLS (conn d)), None)
    end.
Proof. unfold Accept_recv. by destruct (err d). Qed.

Lemma AcceptWithContext_after_outcome c s r r' :
  (r = (None, Some timeoutError) ∨ ∃ d, r = Accept_recv d) →
  AcceptWithContext_after r = Done r' → ctx_outcome c s r'.
Proof.
  unfold ctx_outcome. intros [->|[d ->]].
  - simpl. destruct (isTemporary timeoutError) eqn:Ht; [done|].
    intros [= <-]. eauto 8.
  - rewrite AcceptWithContext_after_recv.
    destruct (err d) as [e|] eqn:He.
    + destruct (isTemporary e) eqn:Ht; [done|]. intros [= <-]. eauto 8.
    + intros [= <-]. eauto 8.
Qed.

(** One step seen from a goroutine inside [AcceptWithContext]. *)
Lemma AcceptWithContext_step g c pc a s s' :
  goroutines s !! g = Some (InAcceptWithContext c pc) → step a s = Some s' →
  (∃ pc', goroutines s' !! g = Some (InAcceptWithContext c pc'))
  ∨ (∃ r, goroutines s' !! g = Some (Returned (RConn r)) ∧ ctx_outcome c s' r).
Proof.
  intros Hg Hstep.
  destruct (decide (actor a = Some g)) as [Hact|Hact];
    [|left; exists pc; by rewrite (step_other_frame _ _ _ _ Hstep Hact)].
  destruct a; simpl in Hact; try discriminate; injection Hact as ->.
  - simpl in Hstep. by rewrite Hg in Hstep.
  - rewrite (step_Run_frame _ _ _ Hg) in Hstep.
    destruct pc as [| |pc]; simpl in Hstep.
    + destruct (contexts s !! c) as [[e|]|] eqn:Hc; simplify_eq/=;
        rewrite lookup_insert_eq.
      * right. eexists. split; [reflexivity|]. unfold ctx_outcome. eauto 8.
      * right. eexists. split; [reflexivity|]. unfold ctx_outcome. eauto 8.
      * eauto.
    + simplify_eq/=. rewrite lookup_insert_eq. eauto.
    + destruct (Accept (now s) (lst s) pc) as [pc'|r|] eqn:Hacc; [| |done].
      * simplify_eq/=. rewrite lookup_insert_eq. eauto.
      * apply Accept_Done in Hacc as [-> _].
        destruct (AcceptWithContext_after (None, Some timeoutError))
          as [pc'|r'|] eqn:Hafter; [| |done];
          injection Hstep as <-; rewrite lookup_with_frame_eq; [eauto|].
        right. exists r'. split; [done|].
        apply (AcceptWithContext_after_outcome c _ (None, Some timeoutError));
          [by left|done].
  - simpl in Hstep. by rewrite Hg in Hstep.
  - destruct (step_Handoff _ _ _ Hstep) as (d & f & s1 & Hp & Hf & Hrecv & ->).
    assert (f = InAcceptWithContext c pc) as -> by congruence.
    destruct (acceptLoop_sent_effect d s1) as (_ & -> & _).
    simpl in Hrecv. destruct pc as [| |pc]; try done.
    destruct (receiving pc); [|done].
    destruct (AcceptWithContext_after (Accept_recv d))
      as [pc'|r'|] eqn:Hafter; [| |done];
      injection Hrecv as <-; rewrite lookup_with_frame_eq; [eauto|].
    right. exists r'. split; [done|].
    apply (AcceptWithContext_after_outcome c _ (Accept_recv d)); [eauto|done].
Qed.

Lemma AcceptWithContext_run g c pc sched s s' :
  goroutines s !! g = Some (InAcceptWithContext c pc) →
  run sched s = Some s' → same_call g sched = true →
  (∃ pc', goroutines s' !! g = Some (InAcceptWithContext c pc'))
  ∨ (∃ r, goroutines s' !! g = Some (Returned (RConn r)) ∧ ctx_outcome c s' r).
Proof.
  revert s pc. induction sched as [|a sched IH]; intros s pc Hg Hrun Hsame.
  - injection Hrun as <-. eauto.
  - apply run_cons in Hrun as (s1 & Hstep & Hrun).
    apply same_call_cons in Hsame as [Ha Hsame].
    destruct (AcceptWithContext_step _ _ _ _ _ _ Hg Hstep)
      as [[pc' Hg1]|(r & Hg1 & Hr)].
    + eauto.
    + right. exists r. eauto using returned_stays_run, ctx_outcome_run.
Qed.

Lemma ctx_outcome_not_raw_timeout c s r :
  ctx_outcome c s r → snd r ≠ Some timeoutError.
Proof.
  unfold ctx_outcome, timeoutError, acceptFailed.
  intros [[-> _]|[(e & -> & _)|[(e & -> & _)|(d & -> & _)]]]; simpl; congruence.
Qed.

(** C3: inside [AcceptWithContext], an [Accept] that fails with an error
    [isTemporary] accepts, be it the timeout of the timer or an error
    received from the pump, sends the loop back to the cancellation check
    of line 72; an error [e] that is not temporary is returned at once as
    [fmt.Errorf("cannot accept connections: %v", e)]; a value without
    error is returned as the connection.  So whatever the call hands back
    is a [ctx_outcome]: its error, if any, is such a wrapper, around the
    cause of the cancellation or around an error that is not temporary,
    and never the bare timeout error of [Accept]. *)
Theorem AcceptWithContext_retries_temporary_errors (g c : nat) (s : state) :
  (∀ fire,
     goroutines s !! g =
       Some (InAcceptWithContext c (CtxAccept (AcceptSelect fire))) →
     fire ≤ now s →
     ∃ s', step (Run g) s = Some s'
       ∧ goroutines s' !! g =
           Some (if isTemporary timeoutError
                 then InAcceptWithContext c CtxCheck
                 else Returned (RConn
                   (None, Some (Errorf "cannot accept connections: %v"
                                  [timeoutError])))))
  ∧ (∀ pc d,
       goroutines s !! g = Some (InAcceptWithContext c (CtxAccept pc)) →
       receiving pc = true → pump s = PumpSelect d →
       ∃ s', step (Handoff g) s = Some s'
         ∧ goroutines s' !! g =
             Some (match err d with
                   | Some e =>
                       if isTemporary e then InAcceptWithContext c CtxCheck
                       else Returned (RConn
                         (None, Some (Errorf "cannot accept connections: %v" [e])))
                   | None => Returned (RConn (Some (NewConnDTLS (conn d)), None))
                   end))
  ∧ (goroutines s !! g = Some (InAcceptWithContext c CtxCheck) →
       ∃ s', step (Run g) s = Some s'
         ∧ goroutines s' !! g =
             Some (match contexts s !! c with
                   | Some (Some e) =>
                       Returned (RConn
                         (None, Some (Errorf "cannot accept connections: %v" [e])))
                   | Some None => Returned (RConn (None, None))
                   | None => InAcceptWithContext c CtxSetDeadline
                   end))
  ∧ (∀ pc sched s',
       goroutines s !! g = Some (InAcceptWithContext c pc) →
       run sched s = Some s' → same_call g sched = true →
       (∃ pc', goroutines s' !! g = Some (InAcceptWithContext c pc'))
       ∨ (∃ r, goroutines s' !! g = Some (Returned (RConn r))
            ∧ ctx_outcome c s' r
            ∧ snd r ≠ Some timeoutError
            ∧ (∀ e, snd r = Some e →
                 fst r = None
                 ∧ ∃ e', e = Errorf "cannot accept connections: %v" [e']
                     ∧ (contexts s' !! c = Some (Some e')
                        ∨ isTemporary e' = false)))).
Proof.
  split; [|split; [|split]].
  - intros fire Hg Hfire. rewrite (step_Run_frame _ _ _ Hg). simpl.
    destruct (Z.leb_spec fire (now s)); [|lia].
    rewrite AcceptWithContext_after_timeout.
    destruct (isTemporary timeoutError); simpl;
      eexists; (split; [reflexivity|]); apply lookup_with_frame_eq.
  - intros pc d Hg Hpc Hp. simpl. rewrite Hp, Hg. simpl. rewrite Hpc.
    rewrite AcceptWithContext_after_recv.
    destruct (err d) as [e|] eqn:He; [destruct (isTemporary e)|]; simpl;
      eexists; (split; [reflexivity|]);
      match goal with
      | |- goroutines (acceptLoop_sent ?d ?s1) !! _ = _ =>
          destruct (acceptLoop_sent_effect d s1) as (_ & -> & _)
      end; apply lookup_with_frame_eq.
  - intros Hg. rewrite (step_Run_frame _ _ _ Hg). simpl.
    destruct (contexts s !! c) as [[e|]|]; simpl;
      eexists; (split; [reflexivity|]); apply lookup_with_frame_eq.
  - intros pc sched s' Hg Hrun Hsame.
    destruct (AcceptWithContext_run _ _ _ _ _ _ Hg Hrun Hsame)
      as [?|(r & ? & Hr)]; [by left|right].
    exists r. split; [done|]. split; [done|].
    split; [by eapply ctx_outcome_not_raw_timeout|].
    intros e He. unfold ctx_outcome in Hr.
    destruct Hr as [[-> _]|[(e' & -> & ?)|[(e' & -> & ?)|(d & -> & _)]]];
      simpl in He; simplify_eq; eauto.
Qed.

(** ** Close *)

(** The first action of [g] itself in a schedule that changes its frame. *)
Lemma first_own_action g f sched s s' :
  goroutines s !! g = Some f → run sched s = Some s' →
  goroutines s' !! g ≠ Some f →
  ∃ before a after s0 s1,
    sched = before ++ a :: after
    ∧ Forall (λ b, actor b ≠ Some g) before
    ∧ run before s = Some s0 ∧ goroutines s0 !! g = Some f
    ∧ actor a = Some g ∧ step a s0 = Some s1
    ∧ run after s1 = Some s'.
Proof.
  revert s. induction sched as [|a sched IH]; intros s Hg Hrun Hne.
  - injection Hrun as <-. done.
  - apply run_cons in Hrun as (s1 & Hstep & Hrun).
    destruct (decide (actor a = Some g)) as [Hact|Hact].
    + exists [], a, sched, s, s1. done.
    + assert (Hg1 : goroutines s1 !! g = Some f)
        by (by rewrite (step_other_frame _ _ _ _ Hstep Hact)).
      destruct (IH _ Hg1 Hrun Hne)
        as (before & a' & after & s0 & s2 & -> & Hb & Hrb & ? & ? & ? & ?).
      exists (a :: before), a', after, s0, s2. repeat split; try done.
      * by apply Forall_cons.
      * apply run_cons. eauto.
Qed.

Lemma same_call_app g sched1 sched2 :
  same_call g (sched1 ++ sched2) = true →
  same_call g sched1 = true ∧ same_call g sched2 = true.
Proof. unfold same_call. rewrite forallb_app. apply andb_prop. Qed.

(** The steps of [Close], in the order of the source: the dtls listener
    is closed with the grace period, then [doneCh] is closed (a panic if it
    is closed already), then the wait group must be at zero to return. *)
Lemma Close_own_step g pc a s s' :
  goroutines s !! g = Some (InClose pc) → step a s = Some s' →
  actor a = Some g →
  (pc = CloseListener
   ∧ ∃ e, a = ListenerClosed g e
       ∧ goroutines s' !! g = Some (InClose (CloseDone e))
       ∧ close_calls (listener (lst s')) =
           close_calls (listener (lst s)) ++ [closeGrace])
  ∨ (∃ e, pc = CloseDone e ∧ a = Run g
       ∧ ((doneCh (lst s) = false ∧ doneCh (lst s') = true
           ∧ goroutines s' !! g = Some (InClose (CloseWait e)))
          ∨ (doneCh (lst s) = true ∧ goroutines s' !! g = Some Panicked)))
  ∨ (∃ e, pc = CloseWait e ∧ a = Run g ∧ wg (lst s) = 0
       ∧ goroutines s' !! g = Some (Returned (RErr e))).
Proof.
  intros Hg Hstep Hact.
  destruct a; simpl in Hact; try discriminate; injection Hact as ->.
  - simpl in Hstep. by rewrite Hg in Hstep.
  - rewrite (step_Run_frame _ _ _ Hg) in Hstep.
    destruct pc as [|e|e]; simpl in Hstep; [done| |].
    + right. left. exists e. split; [done|]. split; [done|].
      destruct (doneCh (lst s)) eqn:Hd; injection Hstep as <-;
        rewrite lookup_with_frame_eq; [right|left]; done.
    + right. right. exists e.
      destruct (Z.eqb_spec (wg (lst s)) 0) as [Hw|]; [|done].
      injection Hstep as <-. rewrite lookup_with_frame_eq. done.
  - left. simpl in Hstep. rewrite Hg in Hstep.
    destruct pc; [|done..]. injection Hstep as <-.
    split; [done|]. exists e. rewrite lookup_with_frame_eq. done.
  - apply step_Handoff in Hstep as (d & f & s1 & _ & Hf & Hrecv & _).
    assert (f = InClose pc) as -> by congruence. done.
Qed.

Lemma panicked_stays g sched s s' :
  goroutines s !! g = Some Panicked → run sched s = Some s' →
  goroutines s' !! g = Some Panicked.
Proof.
  revert s. induction sched as [|a sched IH]; intros s Hg Hrun.
  - by injection Hrun as <-.
  - apply run_cons in Hrun as (s1 & Hstep & Hrun). apply (IH s1); [|done].
    destruct (step_frame a s s1 g Hstep)
      as [E|[(c & -> & E)|(f & f2 & Hg' & E & Hfol & _)]].
    + congruence.
    + simpl in Hstep. by rewrite Hg in Hstep.
    + assert (f = Panicked) as -> by congruence. done.
Qed.

Lemma step_close_calls a s s' grace :
  step a s = Some s' → grace ∈ close_calls (listener (lst s)) →
  grace ∈ close_calls (listener (lst s')).
Proof.
  intros Hstep Hin. destruct a as [dt|c cause|g' k|g'|g' e| |d|g'|].
  - by step_inv Hstep.
  - by step_inv Hstep.
  - by step_inv Hstep.
  - apply step_Run in Hstep as (f & _ & Hf).
    apply run_frame_effect in Hf as (_ & _ & _ & _ & -> & _). done.
  - step_inv Hstep. apply elem_of_app. by left.
  - by step_inv Hstep.
  - by step_inv Hstep.
  - apply step_Handoff in Hstep as (d & f & s1 & _ & _ & Hrecv & ->).
    apply receive_effect in Hrecv as (_ & _ & _ & Hl1 & _).
    destruct (acceptLoop_sent_effect d s1) as (_ & _ & _ & _ & _ & -> & _).
    by rewrite Hl1.
  - by step_inv Hstep.
Qed.

Lemma run_close_calls sched s s' grace :
  run sched s = Some s' → grace ∈ close_calls (listener (lst s)) →
  grace ∈ close_calls (listener (lst s')).
Proof.
  revert s. induction sched as [|a sched IH]; intros s Hrun Hin.
  - by injection Hrun as <-.
  - apply run_cons in Hrun as (s1 & Hstep & Hrun). eauto using step_close_calls.
Qed.

Lemma pump_inv_wg s : pump_inv s → (wg (lst s) = 0 ↔ pump s = PumpReturned).
Proof.
  unfold pump_inv. destruct (pump s); split; try done; intros; lia || naive_solver.
Qed.

(** The three moves of a call of [Close] that returns. *)
Lemma Close_phases g s0 sched s' v :
  goroutines s0 !! g = Some (InClose CloseListener) →
  run sched s0 = Some s' →
  same_call g sched = true →
  goroutines s' !! g = Some (Returned v) →
  ∃ e b1 b2 b3 rest s1 s2 s3,
    sched = b1 ++ ListenerClosed g e :: b2 ++ Run g :: b3 ++ Run g :: rest
    ∧ Forall (λ b, actor b ≠ Some g) (b1 ++ b2 ++ b3)
    ∧ v = RErr e
    ∧ run (b1 ++ [ListenerClosed g e]) s0 = Some s1
    ∧ close_calls (listener (lst s1)) ≠ []
    ∧ last (close_calls (listener (lst s1))) = Some closeGrace
    ∧ run (b2 ++ [Run g]) s1 = Some s2
    ∧ doneCh (lst s2) = true
    ∧ goroutines s2 !! g = Some (InClose (CloseWait e))
    ∧ run b3 s2 = Some s3
    ∧ wg (lst s3) = 0
    ∧ run (Run g :: rest) s3 = Some s'
    ∧ doneCh (lst s') = true.
Proof.
  intros Hg0 Hrun Hsame Hv.
  (* line 132 *)
  destruct (first_own_action g _ sched s0 s' Hg0 Hrun)
    as (b1 & a1 & r1 & sA & s1 & -> & Hb1 & HrunA & HgA & Hact1 & Hstep1 & Hrun1);
    [congruence|].
  destruct (Close_own_step _ _ _ _ _ HgA Hstep1 Hact1)
    as [(_ & e & -> & Hg1 & Hcalls1)|[(e & ? & _)|(e & ? & _)]]; [|done..].
  apply same_call_app in Hsame as [_ Hsame].
  apply same_call_cons in Hsame as [_ Hsame].
  (* line 133 *)
  destruct (first_own_action g _ r1 s1 s' Hg1 Hrun1)
    as (b2 & a2 & r2 & sB & s2 & -> & Hb2 & HrunB & HgB & Hact2 & Hstep2 & Hrun2);
    [congruence|].
  destruct (Close_own_step _ _ _ _ _ HgB Hstep2 Hact2)
    as [(? & _)|[(e' & [= <-] & -> & Hdone)|(e' & ? & _)]]; [done| |done].
  destruct Hdone as [(_ & Hd2 & Hg2)|(_ & Hg2)];
    [|rewrite (panicked_stays _ _ _ _ Hg2 Hrun2) in Hv; done].
  apply same_call_app in Hsame as [_ Hsame].
  apply same_call_cons in Hsame as [_ Hsame].
  (* lines 134-135 *)
  destruct (first_own_action g _ r2 s2 s' Hg2 Hrun2)
    as (b3 & a3 & r3 & s3 & sC & -> & Hb3 & Hrun3 & Hg3 & Hact3 & Hstep3 & HrunC);
    [congruence|].
  destruct (Close_own_step _ _ _ _ _ Hg3 Hstep3 Hact3)
    as [(? & _)|[(e' & ? & _)|(e' & [= <-] & -> & Hwg & HgC)]]; [done..|].
  apply same_call_app in Hsame as [_ Hsame].
  apply same_call_cons in Hsame as [_ Hsame].
  rewrite (returned_stays_run _ _ _ _ _ HgC HrunC Hsame) in Hv.
  injection Hv as <-.
  assert (HrunC' : run (Run g :: r3) s3 = Some s').
  { apply run_cons. eauto. }
  exists e, b1, b2, b3, r3, s1, s2, s3.
  split; [done|]. split; [by rewrite !Forall_app|]. split; [done|].
  split; [by apply (run_snoc _ _ _ sA)|].
  split. { rewrite Hcalls1. by intros [_ ?]%app_nil. }
  split. { rewrite Hcalls1. apply last_snoc. }
  split; [by apply (run_snoc _ _ _ sB)|].
  split; [done|]. split; [done|]. split; [done|]. split; [done|].
  split; [done|]. eauto using run_doneCh.
Qed.

(** A call of [Close] on a listener whose [doneCh] is still open can
    always come back, with whatever the dtls listener's [Close] answers:
    the pump ends its round and leaves through [<-l.doneCh]. *)
Lemma Close_can_return g e s :
  pump_inv s → free g s = true → doneCh (lst s) = false →
  ∃ sched s', run (Enter g CallClose :: sched) s = Some s'
    ∧ same_call g sched = true
    ∧ goroutines s' !! g = Some (Returned (RErr e)).
Proof.
  intros Hinv Hfree Hd.
  set (d := ConnData None (Some (External 0))).
  set (finish := [PumpSeesDone; Run g]).
  exists (ListenerClosed g e :: Run g ::
            match pump s with
            | PumpCall => PumpRun :: ListenerAccepted d :: finish
            | PumpBlocked => ListenerAccepted d :: finish
            | PumpSelect _ => finish
            | PumpReturned => [Run g]
            end).
  cbn [run]. rewrite (step_Enter _ _ _ Hfree).
  rewrite step_ListenerClosed by apply lookup_with_frame_eq.
  rewrite (step_Run_frame g (InClose (CloseDone e))) by apply lookup_with_frame_eq.
  cbn [run_frame]. simpl doneCh. rewrite Hd.
  unfold pump_inv in Hinv.
  destruct (pump s) as [| |d'|] eqn:Hp; subst finish; simpl;
    rewrite ?Hp; simpl; rewrite ?lookup_insert_eq; simpl;
    [destruct Hinv as (_ & _ & _ & ->)..|destruct Hinv as (-> & _)]; simpl;
    (eexists; split; [reflexivity|]; split; [done|];
     apply lookup_with_frame_eq).
Qed.
(** C7: a call of [Close] that returns has made exactly three moves, in
    this order: it closed the dtls listener with the grace period of 100
    milliseconds and kept the error [e] that came back; it closed
    [doneCh]; it got through [wg.Wait()], which it can only do once the
    pump has returned.  What it returns is [e].  And while [doneCh] is
    open the call can return, whatever error the dtls listener answers. *)
Theorem Close_closes_signals_joins_and_returns_error (g : nat) (s : state) :
  reachable s →
  free g s = true →
  (∀ sched s' v,
     run (Enter g CallClose :: sched) s = Some s' →
     same_call g sched = true →
     goroutines s' !! g = Some (Returned v) →
     ∃ e b1 b2 b3 rest s1 s2 s3,
       sched = b1 ++ ListenerClosed g e :: b2 ++ Run g :: b3 ++ Run g :: rest
       ∧ Forall (λ b, actor b ≠ Some g) (b1 ++ b2 ++ b3)
       ∧ v = RErr e
       ∧ run (Enter g CallClose :: b1 ++ [ListenerClosed g e]) s = Some s1
       ∧ close_calls (listener (lst s1)) ≠ []
       ∧ last (close_calls (listener (lst s1))) = Some closeGrace
       ∧ closeGrace = 100 * 1000 * 1000
       ∧ run (b2 ++ [Run g]) s1 = Some s2
       ∧ doneCh (lst s2) = true
       ∧ goroutines s2 !! g = Some (InClose (CloseWait e))
       ∧ run b3 s2 = Some s3
       ∧ pump s3 = PumpReturned ∧ wg (lst s3) = 0
       ∧ run (Run g :: rest) s3 = Some s'
       ∧ doneCh (lst s') = true ∧ pump s' = PumpReturned)
  ∧ (doneCh (lst s) = false →
     ∀ e, ∃ sched s', run (Enter g CallClose :: sched) s = Some s'
       ∧ same_call g sched = true
       ∧ goroutines s' !! g = Some (Returned (RErr e))).
Proof.
  intros Hreach Hfree. split;
    [|intros Hd e; by apply Close_can_return; [apply pump_inv_reachable|..]].
  intros sched s' v Hrun Hsame Hv.
  apply run_cons in Hrun as (s0 & Hs0 & Hrun).
  assert (Hreach0 : reachable s0) by eauto using reachable_step.
  rewrite (step_Enter _ _ _ Hfree) in Hs0. injection Hs0 as <-.
  set (s0 := with_frame g (enter CallClose) s) in *.
  destruct (Close_phases g s0 sched s' v (lookup_with_frame_eq _ _ _) Hrun Hsame Hv)
    as (e & b1 & b2 & b3 & rest & s1 & s2 & s3 & -> & Hall & -> & Hrun1 & Hne
        & Hlast & Hrun2 & Hd2 & Hg2 & Hrun3 & Hwg & HrunC & Hd').
  assert (Hreach3 : reachable s3) by eauto using reachable_run.
  assert (Hp3 : pump s3 = PumpReturned).
  { by apply pump_inv_wg; [apply pump_inv_reachable|]. }
  exists e, b1, b2, b3, rest, s1, s2, s3.
  split; [done|]. split; [done|]. split; [done|].
  split. { apply run_cons. exists s0. split; [by apply step_Enter|done]. }
  do 9 (split; [done|]). split; [done|].
  by destruct (run_pump_returned _ _ _ HrunC Hp3).
Qed.

(** ** Close, a second time *)

(** With [doneCh] closed, a call of [Close] gets as far as line 133 and
    panics there. *)
Lemma Close_run_doneCh_closed g sched s s' :
  doneCh (lst s) = true →
  (goroutines s !! g = Some (InClose CloseListener)
   ∨ (∃ e, goroutines s !! g = Some (InClose (CloseDone e)))
   ∨ goroutines s !! g = Some Panicked) →
  run sched s = Some s' →
  goroutines s' !! g = Some (InClose CloseListener)
  ∨ (∃ e, goroutines s' !! g = Some (InClose (CloseDone e)))
  ∨ goroutines s' !! g = Some Panicked.
Proof.
  revert s. induction sched as [|a sched IH]; intros s Hd Hg Hrun.
  - by injection Hrun as <-.
  - apply run_cons in Hrun as (s1 & Hstep & Hrun).
    apply (IH s1); [by apply (step_doneCh a s)| |done].
    destruct (decide (actor a = Some g)) as [Hact|Hact];
      [|by rewrite (step_other_frame _ _ _ _ Hstep Hact)].
    destruct Hg as [Hg|[[e Hg]|Hg]].
    + destruct (Close_own_step _ _ _ _ _ Hg Hstep Hact)
        as [(_ & e & _ & Hg1 & _)|[(e & ? & _)|(e & ? & _)]]; [eauto|done..].
    + destruct (Close_own_step _ _ _ _ _ Hg Hstep Hact)
        as [(? & _)|[(e' & _ & _ & Hdone)|(e' & ? & _)]]; [done| |done].
      destruct Hdone as [(? & _)|(_ & Hg1)]; [congruence|eauto].
    + right. right. apply (panicked_stays g [a] s); [done|].
      simpl. by rewrite Hstep.
Qed.

(** C10: once a call of [Close] has returned, another call of [Close] on
    the listener never returns: it closes the dtls listener again, then
    reaches [close(l.doneCh)] on a channel that is already closed, and
    panics. *)
Theorem second_Close_panics
    (g0 : nat) (s0 : state) (sched0 : list action) (v0 : retval)
    (g : nat) (s : state) :
  free g0 s0 = true →
  run (Enter g0 CallClose :: sched0) s0 = Some s →
  same_call g0 sched0 = true →
  goroutines s !! g0 = Some (Returned v0) →
  free g s = true →
  doneCh (lst s) = true
  ∧ (∀ sched s', run (Enter g CallClose :: sched) s = Some s' →
       (∀ v, goroutines s' !! g ≠ Some (Returned v))
       ∧ (goroutines s' !! g = Some (InClose CloseListener)
          ∨ (∃ e, goroutines s' !! g = Some (InClose (CloseDone e)))
          ∨ goroutines s' !! g = Some Panicked))
  ∧ (∀ e, ∃ s', run [Enter g CallClose; ListenerClosed g e; Run g] s = Some s'
       ∧ goroutines s' !! g = Some Panicked).
Proof.
  intros Hfree0 Hrun0 Hsame0 Hv0 Hfree.
  assert (Hd : doneCh (lst s) = true).
  { apply run_cons in Hrun0 as (s1 & Hs1 & Hrun0).
    rewrite (step_Enter _ _ _ Hfree0) in Hs1. injection Hs1 as <-.
    destruct (Close_phases g0 _ sched0 s v0 (lookup_with_frame_eq _ _ _)
                Hrun0 Hsame0 Hv0) as (? & ? & ? & ? & ? & ? & ? & ? & H').
    apply H'. }
  split; [done|]. split.
  - intros sched s' Hrun.
    apply run_cons in Hrun as (s1 & Hs1 & Hrun).
    rewrite (step_Enter _ _ _ Hfree) in Hs1. injection Hs1 as <-.
    assert (Hcases := Close_run_doneCh_closed g sched
                        (with_frame g (InClose CloseListener) s) s' Hd
                        (or_introl (lookup_with_frame_eq _ _ _)) Hrun).
    split; [|done]. intros v Hv. destruct Hcases as [?|[[e ?]|?]]; congruence.
  - intros e. eexists. split.
    + cbn [run]. rewrite (step_Enter _ _ _ Hfree).
      rewrite step_ListenerClosed by apply lookup_with_frame_eq.
      rewrite (step_Run_frame g (InClose (CloseDone e)))
        by apply lookup_with_frame_eq.
      simpl. rewrite Hd. reflexivity.
    + apply lookup_with_frame_eq.
Qed.

(** ** Beyond the claims: deliveries and closes, counted *)

Lemma step_counts a s s' :
  step a s = Some s' →
  length (connCh (lst s')) = (length (connCh (lst s)) + handoffs [a])%nat
  ∧ length (accepted (listener (lst s'))) =
      (length (accepted (listener (lst s))) + accept_returns [a])%nat
  ∧ close_calls (listener (lst s')) =
      close_calls (listener (lst s)) ++ replicate (listener_closes [a]) closeGrace.
Proof.
  intros Hstep. destruct a as [dt|c cause|g' k|g'|g' e| |d|g'|];
    unfold handoffs, accept_returns, listener_closes; simpl.
  - step_inv Hstep. by rewrite !Nat.add_0_r, app_nil_r.
  - step_inv Hstep; by rewrite !Nat.add_0_r, app_nil_r.
  - step_inv Hstep; by rewrite !Nat.add_0_r, app_nil_r.
  - apply step_Run in Hstep as (f & _ & Hf).
    apply run_frame_effect in Hf as (_ & _ & _ & _ & -> & _ & _ & -> & _).
    by rewrite !Nat.add_0_r, app_nil_r.
  - step_inv Hstep; by rewrite !Nat.add_0_r.
  - step_inv Hstep. by rewrite !Nat.add_0_r, app_nil_r.
  - step_inv Hstep. by rewrite length_app, Nat.add_0_r, app_nil_r.
  - apply step_Handoff in Hstep as (d & f & s1 & _ & _ & Hrecv & ->).
    apply receive_effect in Hrecv as (_ & _ & _ & Hl1 & _).
    destruct (acceptLoop_sent_effect d s1) as (_ & _ & _ & _ & _ & -> & -> & _).
    by rewrite Hl1, length_app, Nat.add_0_r, app_nil_r.
  - step_inv Hstep. by rewrite !Nat.add_0_r, app_nil_r.
Qed.

Lemma counts_cons a sched :
  handoffs (a :: sched) = (handoffs [a] + handoffs sched)%nat
  ∧ accept_returns (a :: sched) = (accept_returns [a] + accept_returns sched)%nat
  ∧ listener_closes (a :: sched) = (listener_closes [a] + listener_closes sched)%nat.
Proof.
  unfold handoffs, accept_returns, listener_closes. by destruct a.
Qed.

Lemma run_counts sched s s' :
  run sched s = Some s' →
  length (connCh (lst s')) = (length (connCh (lst s)) + handoffs sched)%nat
  ∧ length (accepted (listener (lst s'))) =
      (length (accepted (listener (lst s))) + accept_returns sched)%nat
  ∧ close_calls (listener (lst s')) =
      close_calls (listener (lst s)) ++ replicate (listener_closes sched) closeGrace.
Proof.
  revert s. induction sched as [|a sched IH]; intros s Hrun.
  - injection Hrun as <-. unfold handoffs, accept_returns, listener_closes. simpl.
    by rewrite !Nat.add_0_r, app_nil_r.
  - apply run_cons in Hrun as (s1 & Hstep & Hrun).
    destruct (step_counts _ _ _ Hstep) as (E1 & E2 & E3).
    destruct (IH _ Hrun) as (-> & -> & ->).
    destruct (counts_cons a sched) as (-> & -> & ->).
    rewrite E1, E2, E3, replicate_add, <- app_assoc. repeat split; lia.
Qed.

(** X1: counted over any schedule run on a fresh listener, the deliveries
    on [connCh] are as many as the values the channel has carried, the
    returns of the dtls listener's [Accept] as many as its outcomes, and
    the deliveries fall short of the outcomes by one at most: no outcome is
    delivered twice, and the only one ever missing is the one on offer or
    the one abandoned at [doneCh]. *)
Theorem outcomes_delivered_at_most_once
    (t0 : Time) (hb : Duration) (s0 : state) (sched : list action) (s : state) :
  started t0 hb s0 →
  run sched s0 = Some s →
  length (connCh (lst s)) = handoffs sched
  ∧ length (accepted (listener (lst s))) = accept_returns sched
  ∧ (handoffs sched ≤ accept_returns sched ≤ S (handoffs sched))%nat
  ∧ connCh (lst s) `prefix_of` accepted (listener (lst s))
  ∧ (accept_returns sched = S (handoffs sched) →
     (∃ d, pump s = PumpSelect d)
     ∨ (pump s = PumpReturned ∧ doneCh (lst s) = true)).
Proof.
  intros Hs0 Hrun.
  pose proof (pump_inv_run _ _ _ (pump_inv_started _ _ _ Hs0) Hrun) as Hinv.
  destruct (run_counts _ _ _ Hrun) as (Hh & Ha & _).
  destruct Hs0 as (l & Hl & ->). injection Hl as <-. simpl in Hh, Ha.
  split; [done|]. split; [done|]. rewrite <- Hh, <- Ha.
  unfold pump_inv in Hinv.
  destruct (pump s) as [| |d|] eqn:Hp.
  - destruct Hinv as (-> & _). split; [lia|]. split; [done|]. lia.
  - destruct Hinv as (-> & _). split; [lia|]. split; [done|]. lia.
  - destruct Hinv as (-> & _). rewrite length_app. simpl.
    split; [lia|]. split; [by apply prefix_app_r|]. eauto.
  - destruct Hinv as (_ & [(d & -> & _ & _ & Hd)|(b & d & e & -> & _)]).
    + rewrite length_app. simpl. split; [lia|].
      split; [by apply prefix_app_r|]. eauto.
    + split; [lia|]. split; [done|]. lia.
Qed.

(** X2: the dtls listener is closed by calls of [Close] and by nothing
    else, once per call that gets to line 132, and always with the grace
    period of 100 milliseconds. *)
Theorem listener_closed_once_per_Close_with_grace
    (t0 : Time) (hb : Duration) (s0 : state) (sched : list action) (s : state) :
  started t0 hb s0 →
  run sched s0 = Some s →
  close_calls (listener (lst s)) = replicate (listener_closes sched) (100 * Millisecond)
  ∧ (∀ a s1 s2, step a s1 = Some s2 →
       close_calls (listener (lst s2)) ≠ close_calls (listener (lst s1)) →
       ∃ g e, a = ListenerClosed g e
         ∧ goroutines s1 !! g = Some (InClose CloseListener)).
Proof.
  intros Hs0 Hrun. split.
  - destruct (run_counts _ _ _ Hrun) as (_ & _ & ->).
    by destruct Hs0 as (l & [= <-] & ->).
  - intros a s1 s2 Hstep Hne.
    destruct (step_counts _ _ _ Hstep) as (_ & _ & E).
    destruct a; unfold listener_closes in E; simpl in E;
      try (rewrite app_nil_r in E; congruence).
    exists g, e. split; [done|]. simpl in Hstep.
    destruct (goroutines s1 !! g) as [[| | |[]| |]|]; done.
Qed.

(** ** Beyond the claims: the timer of Accept is never early *)

Lemma After_not_before now deadline :
  deadline - now ≤ maxDuration → deadline ≤ After now (Sub deadline now).
Proof.
  intros Hr. unfold After, Sub, minDuration, maxDuration in *.
  destruct (Z.ltb_spec (deadline - now) (- 2 ^ 63)); [lia|].
  destruct (Z.ltb_spec (2 ^ 63 - 1) (deadline - now)); lia.
Qed.

Lemma armed_for_step g dl a s s' f :
  goroutines s !! g = Some f → armed_for dl f →
  dl - now s ≤ maxDuration →
  step a s = Some s' → (∀ c, a ≠ Enter g c) →
  ∃ f', goroutines s' !! g = Some f' ∧ armed_for dl f'.
Proof.
  intros Hg Hf Hr Hstep Ha.
  destruct Hf as [->|[(fire & Hfire & ->)|(v & ->)]].
  - destruct (decide (actor a = Some g)) as [Hact|Hact];
      [|exists (InAccept (AcceptArm dl)); split; [|by left];
        by rewrite (step_other_frame _ _ _ _ Hstep Hact)].
    destruct a; simpl in Hact; try discriminate; injection Hact as ->.
    + by destruct (Ha c).
    + rewrite (step_Run_frame _ _ _ Hg) in Hstep. injection Hstep as <-.
      eexists. split; [apply lookup_with_frame_eq|]. right. left.
      eexists. split; [|done]. by apply After_not_before.
    + simpl in Hstep. by rewrite Hg in Hstep.
    + apply step_Handoff in Hstep as (d & f & s1 & _ & Hf & Hrecv & _).
      assert (f = InAccept (AcceptArm dl)) as -> by congruence. done.
  - destruct (Accept_select_step _ _ _ _ _ Hg Hstep)
      as [Hg1|[(_ & _ & Hg1)|(_ & d & _ & Hg1)]];
      eexists; (split; [done|]); unfold armed_for; eauto.
  - exists (Returned v). split; [by eapply returned_stays|].
    unfold armed_for; eauto.
Qed.

Lemma armed_for_run g dl sched s s' f :
  goroutines s !! g = Some f → armed_for dl f →
  dl - now s ≤ maxDuration →
  run sched s = Some s' → same_call g sched = true →
  ∃ f', goroutines s' !! g = Some f' ∧ armed_for dl f'.
Proof.
  revert s f. induction sched as [|a sched IH]; intros s f Hg Hf Hr Hrun Hsame.
  - injection Hrun as <-. eauto.
  - apply run_cons in Hrun as (s1 & Hstep & Hrun).
    apply same_call_cons in Hsame as [Ha Hsame].
    destruct (armed_for_step _ _ _ _ _ _ Hg Hf Hr Hstep Ha) as (f1 & Hg1 & Hf1).
    apply (IH s1 f1); try done.
    pose proof (step_now _ _ _ Hstep). lia.
Qed.

(** X3: [Accept] never times out early.  Once it has loaded a deadline
    [dl] that is less than the largest [Duration] away, its own statement
    can make it return only when the clock has reached [dl], and what it
    then returns is the timeout error; before that it returns only by
    receiving from [connCh]. *)
Theorem Accept_timer_never_early
    (g : nat) (dl : Time) (s : state) (sched : list action) (s1 s2 : state)
    (v : retval) :
  goroutines s !! g = Some (InAccept (AcceptArm dl)) →
  dl - now s ≤ maxDuration →
  run sched s = Some s1 →
  same_call g sched = true →
  step (Run g) s1 = Some s2 →
  goroutines s2 !! g = Some (Returned v) →
  dl ≤ now s1 ∧ v = RConn (None, Some timeoutError).
Proof.
  intros Hg Hr Hrun Hsame Hstep Hv.
  destruct (armed_for_run g dl sched s s1 _ Hg (or_introl eq_refl) Hr Hrun Hsame)
    as (f1 & Hg1 & [->|[(fire & Hfire & ->)|(v1 & ->)]]).
  - rewrite (step_Run_frame _ _ _ Hg1) in Hstep. injection Hstep as <-.
    rewrite lookup_with_frame_eq in Hv. done.
  - rewrite (Accept_timer _ _ _ Hg1) in Hstep.
    destruct (Z.leb_spec fire (now s1)); [|done]. injection Hstep as <-.
    rewrite lookup_with_frame_eq in Hv. injection Hv as <-. split; [lia|done].
  - by rewrite (step_Run_frame _ _ _ Hg1) in Hstep.
Qed.

(** ** Beyond the claims: waiting without a timer *)

Lemma no_handoff_cons g a sched :
  no_handoff g (a :: sched) = true →
  a ≠ Handoff g ∧ no_handoff g sched = true.
Proof.
  unfold no_handoff; simpl. intros [Ha ?]%andb_prop. split; [|done].
  intros ->. rewrite Nat.eqb_refl in Ha. done.
Qed.

(** A goroutine in the select without timer, in [Accept] or in the
    [Accept] of [AcceptWithContext], moves by a handoff and by nothing
    else. *)
Lemma recv_only_step g k a s s' :
  (k = InAccept ∨ ∃ c, k = λ pc, InAcceptWithContext c (CtxAccept pc)) →
  goroutines s !! g = Some (k AcceptRecv) → step a s = Some s' →
  a ≠ Handoff g →
  goroutines s' !! g = Some (k AcceptRecv).
Proof.
  intros Hk Hg Hstep Ha.
  destruct (decide (actor a = Some g)) as [Hact|Hact];
    [|by rewrite (step_other_frame _ _ _ _ Hstep Hact)].
  destruct a; simpl in Hact; try discriminate; injection Hact as ->; [| | |done];
    destruct Hk as [->|[c' ->]]; simpl in Hstep; by rewrite Hg in Hstep.
Qed.

Lemma recv_only_run g k sched s s' :
  (k = InAccept ∨ ∃ c, k = λ pc, InAcceptWithContext c (CtxAccept pc)) →
  goroutines s !! g = Some (k AcceptRecv) → run sched s = Some s' →
  no_handoff g sched = true →
  goroutines s' !! g = Some (k AcceptRecv).
Proof.
  intros Hk. revert s. induction sched as [|a sched IH]; intros s Hg Hrun Hno.
  - by injection Hrun as <-.
  - apply run_cons in Hrun as (s1 & Hstep & Hrun).
    apply no_handoff_cons in Hno as [Ha Hno].
    eauto using recv_only_step.
Qed.

Lemma pump_returned_no_handoff g sched s s' :
  pump s = PumpReturned → run sched s = Some s' → no_handoff g sched = true.
Proof.
  revert s. induction sched as [|a sched IH]; intros s Hp Hrun; [done|].
  apply run_cons in Hrun as (s1 & Hstep & Hrun).
  destruct (step_pump_returned _ _ _ Hstep Hp) as (Hp1 & _ & _ & _ & Hno).
  unfold no_handoff. simpl. fold (no_handoff g sched). rewrite (IH _ Hp1 Hrun).
  destruct a; try done. specialize (Hno g0).
  destruct (Nat.eqb_spec g0 g) as [->|]; done.
Qed.

(** When a call of [Close] has returned, the pump has returned. *)
Lemma Close_returned_pump g0 s0 sched0 s v0 :
  reachable s0 → free g0 s0 = true →
  run (Enter g0 CallClose :: sched0) s0 = Some s →
  same_call g0 sched0 = true →
  goroutines s !! g0 = Some (Returned v0) →
  pump s = PumpReturned.
Proof.
  intros Hreach Hfree Hrun Hsame Hv.
  apply run_cons in Hrun as (s1 & Hs1 & Hrun).
  assert (Hreach1 : reachable s1) by eauto using reachable_step.
  rewrite (step_Enter _ _ _ Hfree) in Hs1. injection Hs1 as <-.
  destruct (Close_phases g0 _ sched0 s v0 (lookup_with_frame_eq _ _ _)
              Hrun Hsame Hv)
    as (e & b1 & b2 & b3 & rest & s1 & s2 & s3 & _ & _ & _ & Hrun1 & _ & _
        & Hrun2 & _ & _ & Hrun3 & Hwg & HrunC & _).
  assert (Hreach3 : reachable s3) by eauto using reachable_run.
  assert (Hp3 : pump s3 = PumpReturned).
  { by apply pump_inv_wg; [apply pump_inv_reachable|]. }
  by destruct (run_pump_returned _ _ _ HrunC Hp3).
Qed.

(** X4: [Close] does not wake an [Accept] that waits without deadline.
    A goroutine that stands in the select of line 110 when a call of
    [Close] has returned stands there for ever: whatever happens next,
    it has not returned, its own statement cannot run and nothing can be
    handed to it. *)
Theorem Close_leaves_Accept_without_deadline_blocked
    (g0 : nat) (s0 : state) (sched0 : list action) (v0 : retval)
    (g : nat) (s : state) :
  reachable s0 →
  free g0 s0 = true →
  run (Enter g0 CallClose :: sched0) s0 = Some s →
  same_call g0 sched0 = true →
  goroutines s !! g0 = Some (Returned v0) →
  goroutines s !! g = Some (InAccept AcceptRecv) →
  ∀ sched s', run sched s = Some s' →
    goroutines s' !! g = Some (InAccept AcceptRecv)
    ∧ step (Run g) s' = None
    ∧ step (Handoff g) s' = None.
Proof.
  intros Hreach Hfree Hrun Hsame Hv Hg sched s' Hrun'.
  pose proof (Close_returned_pump _ _ _ _ _ Hreach Hfree Hrun Hsame Hv) as Hp.
  assert (Hg' : goroutines s' !! g = Some (InAccept AcceptRecv)).
  { apply (recv_only_run g InAccept sched s); eauto using pump_returned_no_handoff. }
  split; [done|]. split.
  - by rewrite (step_Run_frame _ _ _ Hg').
  - destruct (run_pump_returned _ _ _ Hrun' Hp) as (Hp' & _).
    simpl. by rewrite Hp'.
Qed.

(** X5: in [AcceptWithContext], an [Accept] that loads an unset deadline
    (another goroutine stored the zero time after line 80, or the sum of
    line 80 is the zero time) waits in the select without timer: until
    something is handed to it the call neither returns nor looks at the
    context again, cancelled or not. *)
Theorem AcceptWithContext_without_timer_ignores_cancellation
    (g c : nat) (s : state) :
  goroutines s !! g = Some (InAcceptWithContext c (CtxAccept AcceptLoad)) →
  (deadline (lst s) = None ∨ deadline (lst s) = Some 0) →
  ∃ s1, step (Run g) s = Some s1
    ∧ goroutines s1 !! g = Some (InAcceptWithContext c (CtxAccept AcceptRecv))
    ∧ ∀ sched s', run sched s1 = Some s' → no_handoff g sched = true →
        goroutines s' !! g = Some (InAcceptWithContext c (CtxAccept AcceptRecv))
        ∧ step (Run g) s' = None.
Proof.
  intros Hg Hd. eexists. split; [|split].
  - rewrite (step_Run_frame _ _ _ Hg). simpl.
    destruct Hd as [-> | ->]; reflexivity.
  - apply lookup_with_frame_eq.
  - intros sched s' Hrun Hno.
    assert (Hg' : goroutines s' !! g
                  = Some (InAcceptWithContext c (CtxAccept AcceptRecv))).
    { apply (recv_only_run g (λ pc, InAcceptWithContext c (CtxAccept pc))
               sched (with_frame g (InAcceptWithContext c (CtxAccept AcceptRecv)) s));
        eauto using lookup_with_frame_eq. }
    split; [done|]. by rewrite (step_Run_frame _ _ _ Hg').
Qed.

(** ** Beyond the claims: Close and a dtls listener that does not answer *)

Lemma pump_blocked_step a s s' :
  pump s = PumpBlocked → step a s = Some s' →
  (∀ d, a ≠ ListenerAccepted d) → pump s' = PumpBlocked.
Proof.
  intros Hp Hstep Ha. destruct a as [dt|c cause|g' k|g'|g' e| |d|g'|].
  - by step_inv Hstep.
  - by step_inv Hstep.
  - by step_inv Hstep.
  - apply step_Run in Hstep as (f & _ & Hf).
    apply run_frame_effect in Hf as (_ & -> & _). done.
  - by step_inv Hstep.
  - step_inv Hstep.
  - by destruct (Ha d).
  - apply step_Handoff in Hstep as (d & f & s1 & ? & _). congruence.
  - step_inv Hstep.
Qed.

Lemma no_accept_return_cons a sched :
  no_accept_return (a :: sched) = true →
  (∀ d, a ≠ ListenerAccepted d) ∧ no_accept_return sched = true.
Proof.
  unfold no_accept_return; simpl. intros [Ha ?]%andb_prop. split; [|done].
  by intros d ->.
Qed.

(** While the dtls listener's [Accept] does not return, the pump stays
    inside it and the wait group stays at one. *)
Lemma pump_blocked_run sched s s' :
  reachable s → pump s = PumpBlocked →
  run sched s = Some s' → no_accept_return sched = true →
  pump s' = PumpBlocked ∧ wg (lst s') = 1.
Proof.
  revert s. induction sched as [|a sched IH]; intros s Hreach Hp Hrun Hno.
  - injection Hrun as <-. split; [done|].
    pose proof (pump_inv_reachable _ Hreach) as Hinv.
    unfold pump_inv in Hinv. rewrite Hp in Hinv. apply Hinv.
  - apply run_cons in Hrun as (s1 & Hstep & Hrun).
    apply no_accept_return_cons in Hno as [Ha Hno].
    eauto using reachable_step, pump_blocked_step.
Qed.

(** X6: [Close] cannot return while the pump is inside the dtls
    listener's [Accept].  As long as that call does not return, the pump
    stays in it, the wait group stays at one, and a goroutine inside
    [Close] does not come back: [Close] returns only if closing the dtls
    listener makes its [Accept] return. *)
Theorem Close_waits_for_listener_Accept
    (g : nat) (pc : close_pc) (s : state) (sched : list action) (s' : state) :
  reachable s →
  pump s = PumpBlocked →
  goroutines s !! g = Some (InClose pc) →
  run sched s = Some s' →
  no_accept_return sched = true →
  pump s' = PumpBlocked
  ∧ wg (lst s') = 1
  ∧ ((∃ pc', goroutines s' !! g = Some (InClose pc'))
     ∨ goroutines s' !! g = Some Panicked).
Proof.
  intros Hreach Hp Hg Hrun Hno.
  destruct (pump_blocked_run _ _ _ Hreach Hp Hrun Hno) as [Hp' Hwg'].
  split; [done|]. split; [done|]. clear Hp' Hwg'.
  revert s pc Hreach Hp Hg Hrun Hno.
  induction sched as [|a sched IH]; intros s pc Hreach Hp Hg Hrun Hno.
  - injection Hrun as <-. eauto.
  - apply run_cons in Hrun as (s1 & Hstep & Hrun).
    apply no_accept_return_cons in Hno as [Ha Hno].
    pose proof (reachable_step _ _ _ Hreach Hstep) as Hreach1.
    pose proof (pump_blocked_step _ _ _ Hp Hstep Ha) as Hp1.
    destruct (pump_blocked_run [] s s Hreach Hp eq_refl eq_refl) as [_ Hwg].
    destruct (decide (actor a = Some g)) as [Hact|Hact].
    + destruct (Close_own_step _ _ _ _ _ Hg Hstep Hact)
        as [(_ & e & _ & Hg1 & _)|[(e & _ & _ & [(_ & _ & Hg1)|(_ & Hg1)])
           |(e & _ & _ & Hwg0 & _)]].
      * by apply (IH s1 (CloseDone e)).
      * by apply (IH s1 (CloseWait e)).
      * right. by apply (panicked_stays g sched s1).
      * lia.
    + apply (IH s1 pc); try done.
      by rewrite (step_other_frame _ _ _ _ Hstep Hact).
Qed.

(** ** Beyond the claims: one round of AcceptWithContext *)

(** Lines 80-84 and 103-125 with nothing in between. *)
Lemma AcceptWithContext_enters_select g c s :
  goroutines s !! g = Some (InAcceptWithContext c CtxSetDeadline) →
  Add (now s) (heartBeat (lst s)) ≠ 0 →
  run [Run g; Run g; Run g] s =
    Some (with_frame g
            (InAcceptWithContext c (CtxAccept (AcceptSelect
               (After (now s) (Sub (Add (now s) (heartBeat (lst s))) (now s))))))
            (with_frame g
               (InAcceptWithContext c (CtxAccept
                  (AcceptArm (Add (now s) (heartBeat (lst s))))))
               (with_frame g (InAcceptWithContext c (CtxAccept AcceptLoad))
                  (with_lst (with_deadline
                     (Some (Add (now s) (heartBeat (lst s)))) (lst s)) s)))).
Proof.
  intros Hg Hnz. cbn [run]. rewrite (step_Run_frame _ _ _ Hg). simpl run_frame.
  cbn [resume].
  rewrite (step_Run_frame g (InAcceptWithContext c (CtxAccept AcceptLoad)))
    by apply lookup_with_frame_eq.
  simpl run_frame. unfold IsZero.
  destruct (Z.eqb_spec (Add (now s) (heartBeat (lst s))) 0) as [|_]; [done|].
  rewrite (step_Run_frame g (InAcceptWithContext c (CtxAccept
             (AcceptArm (Add (now s) (heartBeat (lst s)))))))
    by apply lookup_with_frame_eq.
  done.
Qed.

Lemma heartbeat_fire now hb :
  minDuration ≤ hb ≤ maxDuration →
  After now (Sub (Add now hb) now) = now + Z.max 0 hb.
Proof.
  intros Hr. unfold Add. rewrite Sub_exact; replace (now + hb - now) with hb by lia.
  all: done.
Qed.

(** X7: one round of [AcceptWithContext] with nothing in between.  From
    line 80, with a heartbeat in the range of [Duration] and a sum that is
    not the zero time, three statements of the call store
    [now + heartBeat] as the deadline and reach the select with a timer
    that fires at [now + max 0 heartBeat]; a heartbeat that is zero or
    negative makes the timer ready at once.  In every state in which the
    call stands in that select, its own statement is blocked before that
    instant; from that instant on, if the context is cancelled and
    [isTemporary] accepts the timeout error, two statements of the call
    return the result of the cancellation.  Nothing is said of a round in
    which another goroutine stores a deadline between line 80 and the
    load of line 104. *)
Theorem AcceptWithContext_heartbeat_round (g c : nat) (s : state) :
  goroutines s !! g = Some (InAcceptWithContext c CtxSetDeadline) →
  Add (now s) (heartBeat (lst s)) ≠ 0 →
  minDuration ≤ heartBeat (lst s) ≤ maxDuration →
  ∃ s1, run [Run g; Run g; Run g] s = Some s1
    ∧ goroutines s1 !! g =
        Some (InAcceptWithContext c (CtxAccept (AcceptSelect
                (now s + Z.max 0 (heartBeat (lst s))))))
    ∧ deadline (lst s1) = Some (now s + heartBeat (lst s))
    ∧ now s1 = now s ∧ pump s1 = pump s
    ∧ (0 < heartBeat (lst s) → step (Run g) s1 = None)
    ∧ (heartBeat (lst s) ≤ 0 → ∃ s2, step (Run g) s1 = Some s2 ∧ now s2 = now s)
    ∧ (∀ s2,
         goroutines s2 !! g = goroutines s1 !! g →
         now s2 < now s + Z.max 0 (heartBeat (lst s)) →
         step (Run g) s2 = None)
    ∧ (∀ s2 cause,
         goroutines s2 !! g = goroutines s1 !! g →
         now s + Z.max 0 (heartBeat (lst s)) ≤ now s2 →
         contexts s2 !! c = Some cause →
         isTemporary timeoutError = true →
         ∃ s3, run [Run g; Run g] s2 = Some s3
           ∧ goroutines s3 !! g =
               Some (Returned (RConn
                 (None, (λ e, Errorf "cannot accept connections: %v" [e])
                          <$> cause)))
           ∧ now s3 = now s2).
Proof.
  intros Hg Hnz Hr.
  pose proof (AcceptWithContext_enters_select g c s Hg Hnz) as Hrun.
  rewrite heartbeat_fire in Hrun by done.
  eexists. split; [exact Hrun|]. clear Hrun.
  split; [apply lookup_with_frame_eq|]. split; [done|].
  split; [done|]. split; [done|]. split; [|split; [|split]].
  - intros Hpos. erewrite step_Run_frame by apply lookup_with_frame_eq.
    simpl. destruct (Z.leb_spec (now s + Z.max 0 (heartBeat (lst s))) (now s));
      [lia|done].
  - intros Hneg. erewrite step_Run_frame by apply lookup_with_frame_eq.
    cbn [run_frame Accept]. simpl now.
    destruct (Z.leb_spec (now s + Z.max 0 (heartBeat (lst s))) (now s));
      [|lia].
    rewrite AcceptWithContext_after_timeout.
    destruct (isTemporary timeoutError); cbn [resume]; eauto.
  - intros s2 Hg2 Hbefore. rewrite lookup_with_frame_eq in Hg2.
    rewrite (step_Run_frame _ _ _ Hg2). cbn [run_frame Accept].
    destruct (Z.leb_spec (now s + Z.max 0 (heartBeat (lst s))) (now s2));
      [lia|done].
  - intros s2 cause Hg2 Hfire Hc Htemp. rewrite lookup_with_frame_eq in Hg2.
    cbn [run]. rewrite (step_Run_frame _ _ _ Hg2). cbn [run_frame Accept].
    destruct (Z.leb_spec (now s + Z.max 0 (heartBeat (lst s))) (now s2)); [|lia].
    rewrite AcceptWithContext_after_timeout, Htemp. cbn [resume].
    rewrite (AcceptWithContext_check_fired g c cause);
      [|apply lookup_with_frame_eq|done].
    eexists. split; [reflexivity|]. split; [apply lookup_with_frame_eq|done].
Qed.

(** X8: a connection on offer gets through [AcceptWithContext].  With the
    context not cancelled and the pump offering an outcome without error,
    the call returns that connection, wrapped by [NewConnDTLS], with a nil
    error; the pump goes on to its next round; and the deadline the call
    stored at line 80 stays behind, in place of whatever was stored
    before. *)
Theorem AcceptWithContext_returns_offered_connection
    (g c : nat) (d : connData) (s : state) :
  free g s = true →
  contexts s !! c = None →
  pump s = PumpSelect d → err d = None →
  Add (now s) (heartBeat (lst s)) ≠ 0 →
  ∃ s', run [Enter g (CallAcceptWithContext c); Run g; Run g; Run g; Run g;
             Handoff g] s = Some s'
    ∧ goroutines s' !! g = Some (Returned (RConn (Some (NewConnDTLS (conn d)), None)))
    ∧ pump s' = PumpCall
    ∧ connCh (lst s') = connCh (lst s) ++ [d]
    ∧ deadline (lst s') = Some (Add (now s) (heartBeat (lst s)))
    ∧ now s' = now s.
Proof.
  intros Hfree Hc Hp He Hnz.
  set (s1 := with_frame g (InAcceptWithContext c CtxSetDeadline)
               (with_frame g (enter (CallAcceptWithContext c)) s)).
  assert (H1 : run [Enter g (CallAcceptWithContext c); Run g] s = Some s1).
  { cbn [run]. rewrite (step_Enter _ _ _ Hfree).
    rewrite (step_Run_frame g (InAcceptWithContext c CtxCheck))
      by apply lookup_with_frame_eq.
    simpl run_frame. by rewrite Hc. }
  pose proof (AcceptWithContext_enters_select g c s1
                (lookup_with_frame_eq _ _ _) Hnz) as H2.
  match type of H2 with _ = Some ?x => set (s2 := x) in * end.
  assert (Hg2 : ∃ fire, goroutines s2 !! g
                = Some (InAcceptWithContext c (CtxAccept (AcceptSelect fire))))
    by (eexists; apply lookup_with_frame_eq).
  destruct Hg2 as [fire Hg2].
  assert (Hp2 : pump s2 = PumpSelect d) by done.
  assert (H3 : run [Handoff g] s2 =
                 Some (acceptLoop_sent d
                         (with_frame g
                            (Returned (RConn (Some (NewConnDTLS (conn d)), None))) s2))).
  { cbn [run step]. rewrite Hp2, Hg2. cbn [receive receiving].
    rewrite AcceptWithContext_after_recv, He. done. }
  change [Enter g (CallAcceptWithContext c); Run g; Run g; Run g; Run g; Handoff g]
    with ([Enter g (CallAcceptWithContext c); Run g] ++ [Run g; Run g; Run g]
          ++ [Handoff g]).
  rewrite run_app, H1. cbn [mbind option_bind]. rewrite run_app, H2.
  cbn [mbind option_bind]. rewrite H3.
  eexists. split; [reflexivity|].
  match goal with
  | |- context [acceptLoop_sent ?d ?s1] =>
      destruct (acceptLoop_sent_effect d s1) as (-> & -> & _ & -> & _ & _ & -> & ->)
  end.
  rewrite He, lookup_with_frame_eq. done.
Qed.

(** ** Beyond the claims: the deadline AcceptWithContext leaves behind *)

Lemma step_heartBeat a s s' :
  step a s = Some s' → heartBeat (lst s') = heartBeat (lst s).
Proof.
  intros Hstep. destruct a as [dt|c cause|g' k|g'|g' e| |d|g'|].
  - by step_inv Hstep.
  - by step_inv Hstep.
  - by step_inv Hstep.
  - apply step_Run in Hstep as (f & _ & Hf).
    by apply run_frame_effect in Hf as (_ & _ & _ & _ & _ & -> & _).
  - by step_inv Hstep.
  - by step_inv Hstep.
  - by step_inv Hstep.
  - apply step_Handoff in Hstep as (d & f & s1 & _ & _ & Hrecv & ->).
    apply receive_effect in Hrecv as (_ & _ & _ & Hl1 & _).
    unfold acceptLoop_sent, pump_return. destruct (err d); simpl; by rewrite Hl1.
  - by step_inv Hstep.
Qed.

Lemma run_heartBeat sched s s' :
  run sched s = Some s' → heartBeat (lst s') = heartBeat (lst s).
Proof.
  revert s. induction sched as [|a sched IH]; intros s Hrun.
  - by injection Hrun as <-.
  - apply run_cons in Hrun as (s1 & Hstep & Hrun).
    rewrite (IH _ Hrun). by apply (step_heartBeat a).
Qed.

Lemma follows_outside_SetDeadline f f' :
  follows f f' → outside_SetDeadline f' = true.
Proof. destruct f; simpl; naive_solver. Qed.

Lemma no_SetDeadline_step a s s' :
  no_SetDeadline s → calls_no_SetDeadline a = true → step a s = Some s' →
  no_SetDeadline s'.
Proof.
  intros Hq Ha Hstep g f' Hg'.
  destruct (step_frame a s s' g Hstep) as [E|[(c & -> & E)|(f & f2 & Hg & E & Hfol & _)]].
  - rewrite E in Hg'. by apply (Hq g).
  - rewrite E in Hg'. injection Hg' as <-. by destruct c.
  - rewrite E in Hg'. injection Hg' as <-. by eapply follows_outside_SetDeadline.
Qed.

(** With nobody in [SetDeadline], a step that changes the deadline is
    line 80 of some [AcceptWithContext]. *)
Lemma no_SetDeadline_deadline a s s' :
  no_SetDeadline s → step a s = Some s' →
  deadline (lst s') = deadline (lst s)
  ∨ deadline (lst s') = Some (Add (now s) (heartBeat (lst s))).
Proof.
  intros Hq Hstep.
  destruct (step_deadline _ _ _ Hstep) as [|(g & f & -> & Hg & Hst)]; [by left|].
  specialize (Hq g f Hg). rewrite (step_Run_frame _ _ _ Hg) in Hstep.
  destruct f as [| |c []| | |]; try done.
  right. simpl in Hstep. by injection Hstep as <-.
Qed.

Lemma heartbeat_deadline_step t0 a s s' :
  no_SetDeadline s → step a s = Some s' → t0 ≤ now s →
  heartbeat_deadline t0 s → heartbeat_deadline t0 s'.
Proof.
  intros Hq Hstep Ht0 (t & Ht & Hd). unfold heartbeat_deadline.
  pose proof (step_now _ _ _ Hstep) as Hnow.
  rewrite (step_heartBeat _ _ _ Hstep).
  destruct (no_SetDeadline_deadline _ _ _ Hq Hstep) as [-> | ->].
  - exists t. split; [lia|done].
  - exists (now s). split; [lia|done].
Qed.




(** ** Beyond the claims: NewDTLSListener *)

(** X10: [NewDTLSListener] fails with the wrapped error of the first step
    that failed, resolving the address before listening, and the two
    wrappers differ from each other, from the wrapper of an accept failure
    and from the timeout error.  When both steps succeed the listener
    starts with the heartbeat given, the wait group at one for the pump,
    [doneCh] open and no deadline stored: on it a first [Accept] waits in
    the select without timer, and [Close] can return. *)
Theorem NewDTLSListener_fails_or_starts
    (resolved listened : option error) (hb : Duration) :
  (∀ e, resolved = Some e →
     NewDTLSListener resolved listened hb =
       inr (Errorf "cannot resolve address: %v" [e]))
  ∧ (∀ e, resolved = None → listened = Some e →
       NewDTLSListener resolved listened hb =
         inr (Errorf "cannot create new dtls listener: %v" [e]))
  ∧ (∀ e, NewDTLSListener resolved listened hb = inr e →
       e ≠ timeoutError ∧ (∀ e', e ≠ acceptFailed e')
       ∧ (resolved = None → ∀ e', e ≠ Errorf "cannot resolve address: %v" [e']))
  ∧ (∀ l, NewDTLSListener resolved listened hb = inl l →
       resolved = None ∧ listened = None
       ∧ heartBeat l = hb ∧ wg l = 1 ∧ doneCh l = false ∧ deadline l = None
       ∧ connCh l = [] ∧ accept_calls (listener l) = 0%nat
       ∧ ∀ t0 g,
           reachable (boot t0 l)
           ∧ (∃ s1, run [Enter g CallAccept; Run g] (boot t0 l) = Some s1
                ∧ goroutines s1 !! g = Some (InAccept AcceptRecv))
           ∧ (∀ e, ∃ sched s', run (Enter g CallClose :: sched) (boot t0 l) = Some s'
                ∧ goroutines s' !! g = Some (Returned (RErr e)))).
Proof.
  split; [|split; [|split]].
  - by intros e ->.
  - by intros e -> ->.
  - intros e He. unfold NewDTLSListener, timeoutError, acceptFailed in *.
    destruct resolved as [x|]; [|destruct listened as [x|]]; simplify_eq/=;
      repeat split; congruence.
  - intros l Hl. unfold NewDTLSListener in Hl.
    destruct resolved; [done|]. destruct listened; [done|]. injection Hl as <-.
    do 8 (split; [done|]). intros t0 g.
    set (l := with_wg _ _).
    assert (Hreach : reachable (boot t0 l)).
    { exists t0, hb, (boot t0 l), []. split; [|done]. by exists l. }
    split; [done|]. split.
    + eexists. split; [by apply Accept_enters_recv; [|left]|].
      apply lookup_with_frame_eq.
    + intros e.
      destruct (Close_can_return g e (boot t0 l)) as (sched & s' & ? & _ & ?);
        eauto using pump_inv_reachable.
Qed.

(** A whole call of [SetDeadline], seen from the other goroutines. *)
Lemma SetDeadline_effect g t s :
  free g s = true →
  ∃ s', run [Enter g (CallSetDeadline t); Run g] s = Some s'
    ∧ deadline (lst s') = Some t
    ∧ now s' = now s
    ∧ ∀ g', g' ≠ g → goroutines s' !! g' = goroutines s !! g'.
Proof.
  intros Hfree. eexists. split.
  - cbn [run]. rewrite (step_Enter _ _ _ Hfree).
    rewrite (step_Run_frame g (InSetDeadline t)) by apply lookup_with_frame_eq.
    simpl. reflexivity.
  - simpl. repeat split; try done.
    intros g' Hg'. by rewrite !lookup_insert_ne.
Qed.

(** ** Beyond the claims: what Accept hands back, and a deadline stored
    while it waits *)

Lemma Accept_run_result g pc sched s s' :
  goroutines s !! g = Some (InAccept pc) →
  run sched s = Some s' → same_call g sched = true →
  (∃ pc', goroutines s' !! g = Some (InAccept pc'))
  ∨ goroutines s' !! g = Some (Returned (RConn (None, Some timeoutError)))
  ∨ (∃ d, d ∈ connCh (lst s')
       ∧ goroutines s' !! g = Some (Returned (RConn (Accept_recv d)))).
Proof.
  revert s pc. induction sched as [|a sched IH]; intros s pc Hg Hrun Hsame.
  - injection Hrun as <-. eauto.
  - apply run_cons in Hrun as (s1 & Hstep & Hrun).
    apply same_call_cons in Hsame as [Ha Hsame].
    destruct (Accept_step _ _ _ _ _ Hg Hstep)
      as [[pc' Hg1]|[[_ Hg1]|(d & -> & Hp & Hg1)]].
    + eauto.
    + right. left. eauto with listener.
    + right. right. exists d. split; [|eauto with listener].
      apply (run_connCh sched s1); [done|].
      apply step_Handoff in Hstep as (d' & f & s2 & Hp' & _ & Hrecv & ->).
      assert (d' = d) as -> by congruence.
      apply receive_effect in Hrecv as (_ & _ & _ & Hl & _).
      destruct (acceptLoop_sent_effect d s2) as (_ & _ & _ & _ & _ & _ & -> & _).
      rewrite Hl. apply elem_of_app. right. apply list_elem_of_here.
Qed.

(** X11: a call of [Accept] that returns hands back either a connection
    and a nil error or no connection and an error, never both and never
    neither: the timeout error of its timer, or what it received from
    [connCh], where an error received wins over a connection received
    with it. *)
Theorem Accept_returns_connection_or_error
    (g : nat) (s : state) (sched : list action) (s' : state) (v : retval) :
  free g s = true →
  run (Enter g CallAccept :: sched) s = Some s' →
  same_call g sched = true →
  goroutines s' !! g = Some (Returned v) →
  ∃ r, v = RConn r
    ∧ (r = (None, Some timeoutError)
       ∨ ∃ d, d ∈ connCh (lst s') ∧ r = Accept_recv d
           ∧ (∀ e, err d = Some e → r = (None, Some e))
           ∧ (err d = None → r = (Some (NewConnDTLS (conn d)), None)))
    ∧ ((∃ x, r = (Some x, None)) ∨ (∃ e, r = (None, Some e))).
Proof.
  intros Hfree Hrun Hsame Hv.
  apply run_cons in Hrun as (s1 & Hs1 & Hrun).
  rewrite (step_Enter _ _ _ Hfree) in Hs1. injection Hs1 as <-.
  destruct (Accept_run_result g AcceptLoad sched _ s' (lookup_with_frame_eq _ _ _)
              Hrun Hsame) as [[pc' Hg]|[Hg|(d & Hd & Hg)]].
  - congruence.
  - rewrite Hg in Hv. injection Hv as <-. eexists. split; [done|]. eauto.
  - rewrite Hg in Hv. injection Hv as <-. exists (Accept_recv d).
    split; [done|]. unfold Accept_recv. split.
    + right. exists d. split; [done|]. split; [done|].
      destruct (err d); split; congruence.
    + destruct (err d); eauto.
Qed.

(** X12: a deadline stored while an [Accept] waits does not reach that
    [Accept].  Its timer was armed when it entered the select: whatever
    another goroutine stores with [SetDeadline] meanwhile, earlier or
    later, the waiting call times out at the instant the timer was armed
    for; only the next call reads the new deadline. *)
Theorem SetDeadline_does_not_reach_pending_Accept
    (g g' : nat) (fire t : Time) (s : state) :
  goroutines s !! g = Some (InAccept (AcceptSelect fire)) →
  free g' s = true →
  ∃ s', run [Enter g' (CallSetDeadline t); Run g'] s = Some s'
    ∧ deadline (lst s') = Some t
    ∧ goroutines s' !! g = Some (InAccept (AcceptSelect fire))
    ∧ now s' = now s
    ∧ (now s < fire → step (Run g) s' = None)
    ∧ (fire ≤ now s →
         ∃ s2, step (Run g) s' = Some s2
           ∧ goroutines s2 !! g = Some (Returned (RConn (None, Some timeoutError)))).
Proof.
  intros Hg Hfree.
  assert (Hne : g' ≠ g).
  { intros ->. unfold free in Hfree. by rewrite Hg in Hfree. }
  destruct (SetDeadline_effect g' t s Hfree) as (s' & Hrun & Hd & Hnow & Hothers).
  exists s'. split; [done|]. split; [done|].
  assert (Hg' : goroutines s' !! g = Some (InAccept (AcceptSelect fire)))
    by (by rewrite Hothers).
  split; [done|]. split; [done|]. rewrite (Accept_timer _ _ _ Hg'), Hnow. split.
  - intros Hlt. destruct (Z.leb_spec fire (now s)); [lia|done].
  - intros Hle. destruct (Z.leb_spec fire (now s)); [|lia].
    eexists. split; [done|]. apply lookup_with_frame_eq.
Qed.

(** ** Beyond the claims: no wait longer than a heartbeat *)

Lemma After_within now deadline hb :
  deadline ≤ now + hb → After now (Sub deadline now) ≤ now + Z.max 0 hb.
Proof.
  intros Hd. unfold After, Sub, minDuration, maxDuration.
  destruct (Z.ltb_spec (deadline - now) (- 2 ^ 63)); [lia|].
  destruct (Z.ltb_spec (2 ^ 63 - 1) (deadline - now)); lia.
Qed.

Lemma heartbeat_wait_step t0 g a s s' :
  no_SetDeadline s → t0 ≤ now s → 0 < t0 + heartBeat (lst s) →
  heartbeat_wait t0 g s → step a s = Some s' →
  heartbeat_wait t0 g s'.
Proof.
  intros Hq Ht0 Hpos Hwait Hstep. unfold heartbeat_wait in *.
  pose proof (heartbeat_deadline_step t0 a s s' Hq Hstep Ht0) as Hkeep.
  pose proof (step_now _ _ _ Hstep) as Hnow.
  pose proof (step_heartBeat _ _ _ Hstep) as Hhb.
  destruct (decide (actor a = Some g)) as [Hact|Hact].
  2:{ rewrite (step_other_frame _ _ _ _ Hstep Hact).
      destruct (goroutines s !! g) as [[| |c [| |[| |dl|fire]]| | |]|]; auto;
        rewrite Hhb; lia. }
  destruct (goroutines s !! g) as [f|] eqn:Hg.
  2:{ destruct (step_frame a s s' g Hstep)
        as [E|[(k & -> & E)|(f & f2 & Hf & _)]]; [| |congruence].
      - by rewrite E, Hg.
      - rewrite E. by destruct k. }
  assert (Hcase : (∃ c pc, f = InAcceptWithContext c pc)
                  ∨ ¬ ∃ c pc, f = InAcceptWithContext c pc).
  { destruct f; try (right; by intros (? & ? & ?)). left; eauto. }
  destruct Hcase as [(c & pc & ->)|Hother].
  - destruct a; simpl in Hact; try discriminate; injection Hact as ->.
    + simpl in Hstep. by rewrite Hg in Hstep.
    + rewrite (step_Run_frame _ _ _ Hg) in Hstep.
      destruct pc as [| |[| |dl|fire]]; simpl in Hstep.
      * destruct (contexts s !! c) as [[e|]|]; simplify_eq/=;
          by rewrite lookup_insert_eq.
      * simplify_eq/=. rewrite lookup_insert_eq.
        exists (now s). simpl. split; [lia|done].
      * destruct Hwait as (t & Ht & Hd). rewrite Hd in Hstep. unfold IsZero in Hstep.
        destruct (Z.eqb_spec (Add t (heartBeat (lst s))) 0) as [Hz|_];
          [unfold Add in Hz; lia|].
        simplify_eq/=. rewrite lookup_insert_eq. unfold Add. lia.
      * done.
      * simplify_eq/=. rewrite lookup_insert_eq. by apply After_within.
      * destruct (fire <=? now s); [|done].
        destruct (AcceptWithContext_after (None, Some timeoutError))
          as [pc'|r|] eqn:Hafter; [| |done]; injection Hstep as <-;
          rewrite lookup_with_frame_eq; [|done].
        simpl in Hafter. by destruct (isTemporary _); simplify_eq.
    + simpl in Hstep. by rewrite Hg in Hstep.
    + destruct (step_Handoff _ _ _ Hstep) as (d & f & s1 & Hp & Hf & Hrecv & ->).
      assert (f = InAcceptWithContext c pc) as -> by congruence.
      destruct (acceptLoop_sent_effect d s1) as (_ & E & _). rewrite E. clear E.
      simpl in Hrecv. destruct pc as [| |pc]; try done.
      destruct (receiving pc); [|done].
      destruct (AcceptWithContext_after (Accept_recv d))
        as [pc'|r|] eqn:Hafter; [| |done]; injection Hrecv as <-;
        rewrite lookup_with_frame_eq; [|done].
      unfold AcceptWithContext_after, Accept_recv in Hafter.
      destruct (err d) as [e|]; [destruct (isTemporary e)|]; by simplify_eq.
  - destruct (step_frame a s s' g Hstep)
      as [E|[(k & -> & E)|(f1 & f2 & Hf & E & Hfol & _)]].
    + rewrite E, Hg. destruct f as [| |c pc| | |]; auto.
      destruct Hother; eauto.
    + rewrite E. by destruct k.
    + rewrite E. assert (f1 = f) as -> by congruence.
      destruct f as [| |c pc| | |]; simpl in Hfol; try done.
      * by subst f2.
      * destruct Hfol as [[pc' ->]|[r ->]]; done.
      * destruct Hother; eauto.
      * destruct Hfol as [[pc' ->]|[->|[e ->]]]; done.
Qed.

Lemma heartbeat_wait_run t0 g sched s s' :
  no_SetDeadline s → t0 ≤ now s → 0 < t0 + heartBeat (lst s) →
  forallb calls_no_SetDeadline sched = true →
  heartbeat_wait t0 g s → run sched s = Some s' →
  heartbeat_wait t0 g s'.
Proof.
  revert s. induction sched as [|a sched IH]; intros s Hq Ht0 Hpos Hcalls Hwait Hrun.
  - by injection Hrun as <-.
  - apply run_cons in Hrun as (s1 & Hstep & Hrun).
    simpl in Hcalls. apply andb_prop in Hcalls as [Ha Hcalls].
    apply (IH s1); try done.
    + by apply (no_SetDeadline_step a s).
    + pose proof (step_now _ _ _ Hstep). lia.
    + by rewrite (step_heartBeat _ _ _ Hstep).
    + by apply (heartbeat_wait_step t0 g a s).
Qed.

(** X13: while nobody calls [SetDeadline], and with heartbeat deadlines
    after the zero time, a call of [AcceptWithContext] never stands in the
    select without timer, and whenever it stands in the select with the
    timer, on whatever schedule, the timer fires at most one heartbeat
    after the present instant (at once for a heartbeat that is zero or
    negative); from the instant it fires the call's own statement can
    run. *)
Theorem AcceptWithContext_waits_at_most_a_heartbeat
    (g c : nat) (s : state) (sched : list action) (s' : state) :
  free g s = true →
  no_SetDeadline s →
  forallb calls_no_SetDeadline sched = true →
  0 < now s + heartBeat (lst s) →
  run (Enter g (CallAcceptWithContext c) :: sched) s = Some s' →
  (∀ c', goroutines s' !! g
         ≠ Some (InAcceptWithContext c' (CtxAccept AcceptRecv)))
  ∧ (∀ c' fire,
       goroutines s' !! g
         = Some (InAcceptWithContext c' (CtxAccept (AcceptSelect fire))) →
       fire ≤ now s' + Z.max 0 (heartBeat (lst s))
       ∧ ∀ s2, goroutines s2 !! g = goroutines s' !! g → fire ≤ now s2 →
           ∃ s3, step (Run g) s2 = Some s3
             ∧ goroutines s3 !! g =
                 Some (if isTemporary timeoutError
                       then InAcceptWithContext c' CtxCheck
                       else Returned (RConn
                         (None, Some (Errorf "cannot accept connections: %v"
                                        [timeoutError]))))).
Proof.
  intros Hfree Hq Hcalls Hpos Hrun.
  apply run_cons in Hrun as (s1 & Hs1 & Hrun).
  assert (Hq1 : no_SetDeadline s1)
    by (by apply (no_SetDeadline_step (Enter g (CallAcceptWithContext c)) s s1)).
  rewrite (step_Enter _ _ _ Hfree) in Hs1. injection Hs1 as <-.
  set (s1 := with_frame g (enter (CallAcceptWithContext c)) s) in *.
  assert (Hwait : heartbeat_wait (now s) g s').
  { apply (heartbeat_wait_run (now s) g sched s1); try done.
    unfold heartbeat_wait, s1. by rewrite lookup_with_frame_eq. }
  assert (Hhb : heartBeat (lst s') = heartBeat (lst s))
    by (by rewrite (run_heartBeat _ _ _ Hrun)).
  unfold heartbeat_wait in Hwait. split.
  - intros c' Hg. by rewrite Hg in Hwait.
  - intros c' fire Hg. rewrite Hg, Hhb in Hwait. split; [done|].
    intros s2 Hg2 Hfire. rewrite Hg in Hg2.
    rewrite (step_Run_frame _ _ _ Hg2). cbn [run_frame Accept].
    destruct (Z.leb_spec fire (now s2)); [|lia].
    rewrite AcceptWithContext_after_timeout.
    destruct (isTemporary timeoutError); cbn [resume];
      eexists; (split; [reflexivity|]); apply lookup_with_frame_eq.
Qed.

End Properties.

(** ** The theorems at work on the concrete runs *)

Section Witnesses.

#[local] Existing Instance example_package.

Lemma ex_boot_reachable : reachable ex_boot.
Proof.
  exists 1000, 50, ex_boot, []. split; [|reflexivity].
  exists ex_listener. split; reflexivity.
Defined.

Lemma SetDeadline_stores_and_never_fails_witness :
  free 0%nat ex_boot = true
  ∧ ∃ s', run [Enter 0%nat (CallSetDeadline 1005); Run 0%nat] ex_boot = Some s'
      ∧ goroutines s' !! 0%nat = Some (Returned (RErr None))
      ∧ deadline (lst s') = Some 1005.
Proof.
  split; [reflexivity|].
  destruct (SetDeadline_stores_and_never_fails 1005 0%nat ex_boot eq_refl)
    as (s' & Hrun & Hg & Hd & _).
  exists s'. split; [exact Hrun|]. split; [exact Hg|exact Hd].
Defined.

Lemma AcceptWithContext_cancelled_witness :
  free 0%nat ex_cancelled = true
  ∧ contexts ex_cancelled !! 0%nat = Some (Some Canceled)
  ∧ ∃ s', run [Enter 0%nat (CallAcceptWithContext 0%nat); Run 0%nat] ex_cancelled
            = Some s'
      ∧ goroutines s' !! 0%nat
          = Some (Returned (RConn
              (None, Some (Errorf "cannot accept connections: %v" [Canceled])))).
Proof.
  split; [reflexivity|]. split; [reflexivity|].
  destruct (AcceptWithContext_cancelled 0%nat 0%nat (Some Canceled) ex_cancelled
              eq_refl eq_refl) as (s' & r & Hrun & Hg & Hr & _).
  exists s'. split; [exact Hrun|]. rewrite <- (Hr Canceled eq_refl). exact Hg.
Defined.

Lemma Accept_without_deadline_blocks_until_handoff_witness :
  free 0%nat ex_boot = true
  ∧ (deadline (lst ex_boot) = None ∨ deadline (lst ex_boot) = Some 0)
  ∧ ∃ s1, run [Enter 0%nat CallAccept; Run 0%nat] ex_boot = Some s1
      ∧ goroutines s1 !! 0%nat = Some (InAccept AcceptRecv).
Proof.
  split; [reflexivity|]. split; [left; reflexivity|].
  destruct (Accept_without_deadline_blocks_until_handoff 0%nat ex_boot
              eq_refl (or_introl eq_refl)) as (s1 & Hrun & Hg & _).
  exists s1. split; [exact Hrun|exact Hg].
Defined.


Lemma acceptLoop_sends_or_exits_once_per_accept_witness :
  reachable ex_pump_sees_done
  ∧ pump ex_pump_sees_done = PumpSelect ex_conn
  ∧ doneCh (lst ex_pump_sees_done) = true
  ∧ ∃ s', step PumpSeesDone ex_pump_sees_done = Some s'
      ∧ pump s' = PumpReturned ∧ wg (lst s') = 0.
Proof.
  assert (Hreach : reachable ex_pump_sees_done).
  { exists 1000, 50, ex_boot,
      [Enter 0%nat CallClose; ListenerClosed 0%nat None; Run 0%nat;
       PumpRun; ListenerAccepted ex_conn].
    split.
    - exists ex_listener. split; reflexivity.
    - vm_compute. reflexivity. }
  assert (Hp : pump ex_pump_sees_done = PumpSelect ex_conn)
    by (vm_compute; reflexivity).
  assert (Hd : doneCh (lst ex_pump_sees_done) = true) by (vm_compute; reflexivity).
  split; [exact Hreach|]. split; [exact Hp|]. split; [exact Hd|].
  destruct (acceptLoop_sends_or_exits_once_per_accept _ Hreach)
    as (_ & _ & _ & _ & _ & _ & Hselect & _).
  destruct (proj1 (Hselect ex_conn Hp) Hd) as (s' & Hstep & Hp' & _ & Hwg).
  exists s'. split; [exact Hstep|]. split; [exact Hp'|exact Hwg].
Defined.

Lemma AcceptWithContext_retries_temporary_errors_witness :
  goroutines ex_in_ctx !! 0%nat = Some (InAcceptWithContext 0%nat CtxCheck)
  ∧ run ex_sched_ctx ex_in_ctx = Some (after ex_sched_ctx ex_in_ctx)
  ∧ same_call 0%nat ex_sched_ctx = true
  ∧ ∃ r, goroutines (after ex_sched_ctx ex_in_ctx) !! 0%nat
           = Some (Returned (RConn r))
      ∧ snd r ≠ Some timeoutError.
Proof.
  assert (Hg : goroutines ex_in_ctx !! 0%nat
               = Some (InAcceptWithContext 0%nat CtxCheck))
    by (vm_compute; reflexivity).
  assert (Hrun : run ex_sched_ctx ex_in_ctx = Some (after ex_sched_ctx ex_in_ctx))
    by (vm_compute; reflexivity).
  assert (Hend : goroutines (after ex_sched_ctx ex_in_ctx) !! 0%nat
                 = Some (Returned (RConn
                     (None, Some (Errorf "cannot accept connections: %v"
                                    [External 1])))))
    by (vm_compute; reflexivity).
  split; [exact Hg|]. split; [exact Hrun|]. split; [reflexivity|].
  destruct (AcceptWithContext_retries_temporary_errors 0%nat 0%nat ex_in_ctx)
    as (_ & _ & _ & Hcall).
  destruct (Hcall CtxCheck ex_sched_ctx _ Hg Hrun eq_refl)
    as [[pc' Hpc]|(r & Hr & _ & Hraw & _)].
  - rewrite Hend in Hpc. discriminate.
  - exists r. split; [exact Hr|exact Hraw].
Defined.

Lemma accept_error_is_forwarded_once_witness :
  pump ex_offering = PumpSelect ex_fatal
  ∧ err ex_fatal = Some (External 7)
  ∧ ∀ sched s', run sched ex_offering = Some s' →
      accept_calls (listener (lst s')) = 1%nat.
Proof.
  split; [reflexivity|]. split; [reflexivity|].
  intros sched s' Hrun.
  destruct (accept_error_is_forwarded_once ex_offering ex_fatal (External 7)
              eq_refl eq_refl) as (_ & Hkeep & _).
  exact (proj1 (Hkeep sched s' Hrun)).
Defined.

Lemma Close_closes_signals_joins_and_returns_error_witness :
  reachable ex_boot
  ∧ free 0%nat ex_boot = true
  ∧ run (Enter 0%nat CallClose :: ex_sched_close) ex_boot = Some ex_closed
  ∧ goroutines ex_closed !! 0%nat = Some (Returned (RErr (Some ex_close_error)))
  ∧ doneCh (lst ex_closed) = true ∧ pump ex_closed = PumpReturned.
Proof.
  assert (Hrun : run (Enter 0%nat CallClose :: ex_sched_close) ex_boot
                 = Some ex_closed) by (vm_compute; reflexivity).
  assert (Hg : goroutines ex_closed !! 0%nat
               = Some (Returned (RErr (Some ex_close_error))))
    by (vm_compute; reflexivity).
  split; [exact ex_boot_reachable|]. split; [reflexivity|].
  split; [exact Hrun|]. split; [exact Hg|].
  destruct (Close_closes_signals_joins_and_returns_error 0%nat ex_boot
              ex_boot_reachable eq_refl) as [Hret _].
  destruct (Hret ex_sched_close ex_closed _ Hrun eq_refl Hg)
    as (e & b1 & b2 & b3 & rest & s1 & s2 & s3 & H).
  split; [apply H|apply H].
Defined.

Lemma deadline_persists_across_Accept_witness :
  all_quiet ex_deadline
  ∧ forallb quiet_action ex_sched_accepts = true
  ∧ run ex_sched_accepts ex_deadline = Some (after ex_sched_accepts ex_deadline)
  ∧ deadline (lst (after ex_sched_accepts ex_deadline)) = Some 1005.
Proof.
  assert (Hq : all_quiet ex_deadline) by apply map_Forall_empty.
  assert (Hrun : run ex_sched_accepts ex_deadline
                 = Some (after ex_sched_accepts ex_deadline))
    by (vm_compute; reflexivity).
  split; [exact Hq|]. split; [reflexivity|]. split; [exact Hrun|].
  exact (proj1 (deadline_persists_across_Accept ex_deadline ex_sched_accepts
                  _ Hq eq_refl Hrun)).
Defined.

Lemma second_Close_panics_witness :
  free 0%nat ex_boot = true
  ∧ run (Enter 0%nat CallClose :: ex_sched_close) ex_boot = Some ex_closed
  ∧ same_call 0%nat ex_sched_close = true
  ∧ goroutines ex_closed !! 0%nat = Some (Returned (RErr (Some ex_close_error)))
  ∧ free 1%nat ex_closed = true
  ∧ ∃ s', run [Enter 1%nat CallClose; ListenerClosed 1%nat None; Run 1%nat]
            ex_closed = Some s'
      ∧ goroutines s' !! 1%nat = Some Panicked.
Proof.
  assert (Hrun : run (Enter 0%nat CallClose :: ex_sched_close) ex_boot
                 = Some ex_closed) by (vm_compute; reflexivity).
  assert (Hg : goroutines ex_closed !! 0%nat
               = Some (Returned (RErr (Some ex_close_error))))
    by (vm_compute; reflexivity).
  assert (Hfree : free 1%nat ex_closed = true) by (vm_compute; reflexivity).
  split; [reflexivity|]. split; [exact Hrun|]. split; [reflexivity|].
  split; [exact Hg|]. split; [exact Hfree|].
  destruct (second_Close_panics 0%nat ex_boot ex_sched_close _ 1%nat ex_closed
              eq_refl Hrun eq_refl Hg Hfree) as (_ & _ & Hpanic).
  exact (Hpanic None).
Defined.

(** C1, as stated, fails: context 0 was cancelled by its cancel function,
    the orderly way to stop a caller, so [Done()] is closed and [Err()] is
    [context.Canceled]; [AcceptWithContext] called then returns no
    connection and an error, not [(nil, nil)]. *)
Lemma cancelled_context_gets_error_not_nil :
  contexts ex_cancelled !! 0%nat = Some (Some Canceled)
  ∧ honours_Context (Some Canceled) = true
  ∧ run [Enter 0%nat (CallAcceptWithContext 0%nat); Run 0%nat] ex_cancelled
      = Some (after [Enter 0%nat (CallAcceptWithContext 0%nat); Run 0%nat]
                ex_cancelled)
  ∧ goroutines (after [Enter 0%nat (CallAcceptWithContext 0%nat); Run 0%nat]
                  ex_cancelled) !! 0%nat
      = Some (Returned (RConn
          (None, Some (Errorf "cannot accept connections: %v" [Canceled]))))
  ∧ goroutines (after [Enter 0%nat (CallAcceptWithContext 0%nat); Run 0%nat]
                  ex_cancelled) !! 0%nat
      ≠ Some (Returned (RConn (None, None))).
Proof.
  split; [reflexivity|]. split; [reflexivity|].
  split; [vm_compute; reflexivity|]. split; [vm_compute; reflexivity|].
  vm_compute. discriminate.
Qed.

(** C2, as stated, fails: the dtls listener's [Accept] returned the fatal
    error [ex_fatal], the first [Accept] received it and the pump
    returned; the next [Accept], with the deadline still stored, returns
    the timeout error and not that error. *)
Lemma subsequent_Accept_times_out_after_fatal_error :
  isTemporary (External 7) = false
  ∧ accepted (listener (lst (after ex_sched_fatal ex_boot))) = [ex_fatal]
  ∧ goroutines (after ex_sched_fatal ex_boot) !! 0%nat
      = Some (Returned (RConn (None, Some (External 7))))
  ∧ pump (after ex_sched_fatal ex_boot) = PumpReturned
  ∧ run (ex_sched_fatal ++ ex_sched_again) ex_boot
      = Some (after (ex_sched_fatal ++ ex_sched_again) ex_boot)
  ∧ goroutines (after (ex_sched_fatal ++ ex_sched_again) ex_boot) !! 0%nat
      = Some (Returned (RConn (None, Some timeoutError)))
  ∧ timeoutError ≠ External 7.
Proof.
  split; [reflexivity|]. split; [vm_compute; reflexivity|].
  split; [vm_compute; reflexivity|]. split; [vm_compute; reflexivity|].
  split; [vm_compute; reflexivity|]. split; [vm_compute; reflexivity|].
  discriminate.
Qed.

(** C9, as stated, fails: the deadline 1005 is stored and has passed (the
    clock shows 1010), no [SetDeadline] intervenes, and yet the [Accept]
    called then returns the connection the pump is offering, not a timeout
    error. *)
Lemma Accept_after_deadline_may_return_connection :
  run ex_sched_late ex_boot = Some (after ex_sched_late ex_boot)
  ∧ deadline (lst (after ex_sched_late ex_boot)) = Some 1005
  ∧ now (after ex_sched_late ex_boot) = 1010
  ∧ goroutines (after ex_sched_late ex_boot) !! 0%nat
      = Some (Returned (RConn (Some (NewConnDTLS (Some 3%nat)), None)))
  ∧ goroutines (after ex_sched_late ex_boot) !! 0%nat
      ≠ Some (Returned (RConn (None, Some timeoutError))).
Proof.
  split; [vm_compute; reflexivity|]. split; [vm_compute; reflexivity|].
  split; [vm_compute; reflexivity|]. split; [vm_compute; reflexivity|].
  vm_compute. discriminate.
Qed.

Lemma ex_boot_started : started 1000 50 ex_boot.
Proof. exists ex_listener. split; reflexivity. Defined.

Lemma outcomes_delivered_at_most_once_witness :
  started 1000 50 ex_boot
  ∧ run ex_sched_fatal ex_boot = Some (after ex_sched_fatal ex_boot)
  ∧ handoffs ex_sched_fatal = 1%nat
  ∧ length (connCh (lst (after ex_sched_fatal ex_boot))) = 1%nat.
Proof.
  assert (Hrun : run ex_sched_fatal ex_boot = Some (after ex_sched_fatal ex_boot))
    by (vm_compute; reflexivity).
  split; [exact ex_boot_started|]. split; [exact Hrun|]. split; [reflexivity|].
  exact (proj1 (outcomes_delivered_at_most_once 1000 50 ex_boot ex_sched_fatal _
                  ex_boot_started Hrun)).
Defined.

Lemma listener_closed_once_per_Close_with_grace_witness :
  started 1000 50 ex_boot
  ∧ run (Enter 0%nat CallClose :: ex_sched_close) ex_boot = Some ex_closed
  ∧ close_calls (listener (lst ex_closed)) = [100000000].
Proof.
  assert (Hrun : run (Enter 0%nat CallClose :: ex_sched_close) ex_boot
                 = Some ex_closed) by (vm_compute; reflexivity).
  split; [exact ex_boot_started|]. split; [exact Hrun|].
  exact (proj1 (listener_closed_once_per_Close_with_grace 1000 50 ex_boot _ _
                  ex_boot_started Hrun)).
Defined.

Lemma Accept_timer_never_early_witness :
  goroutines ex_armed !! 0%nat = Some (InAccept (AcceptArm 1005))
  ∧ 1005 - now ex_armed ≤ maxDuration
  ∧ run ex_sched_wait ex_armed = Some (after ex_sched_wait ex_armed)
  ∧ same_call 0%nat ex_sched_wait = true
  ∧ step (Run 0%nat) (after ex_sched_wait ex_armed)
      = Some (after (ex_sched_wait ++ [Run 0%nat]) ex_armed)
  ∧ goroutines (after (ex_sched_wait ++ [Run 0%nat]) ex_armed) !! 0%nat
      = Some (Returned (RConn (None, Some timeoutError)))
  ∧ 1005 ≤ now (after ex_sched_wait ex_armed).
Proof.
  assert (Hg : goroutines ex_armed !! 0%nat = Some (InAccept (AcceptArm 1005)))
    by (vm_compute; reflexivity).
  assert (Hr : 1005 - now ex_armed ≤ maxDuration) by (vm_compute; discriminate).
  assert (Hrun : run ex_sched_wait ex_armed = Some (after ex_sched_wait ex_armed))
    by (vm_compute; reflexivity).
  assert (Hstep : step (Run 0%nat) (after ex_sched_wait ex_armed)
                  = Some (after (ex_sched_wait ++ [Run 0%nat]) ex_armed))
    by (vm_compute; reflexivity).
  assert (Hv : goroutines (after (ex_sched_wait ++ [Run 0%nat]) ex_armed) !! 0%nat
               = Some (Returned (RConn (None, Some timeoutError))))
    by (vm_compute; reflexivity).
  split; [exact Hg|]. split; [exact Hr|]. split; [exact Hrun|].
  split; [reflexivity|]. split; [exact Hstep|]. split; [exact Hv|].
  exact (proj1 (Accept_timer_never_early 0%nat 1005 ex_armed ex_sched_wait _ _ _
                  Hg Hr Hrun eq_refl Hstep Hv)).
Defined.

Lemma Close_leaves_Accept_without_deadline_blocked_witness :
  reachable ex_waiting
  ∧ free 0%nat ex_waiting = true
  ∧ run (Enter 0%nat CallClose :: ex_sched_close) ex_waiting
      = Some (after (Enter 0%nat CallClose :: ex_sched_close) ex_waiting)
  ∧ same_call 0%nat ex_sched_close = true
  ∧ goroutines (after (Enter 0%nat CallClose :: ex_sched_close) ex_waiting) !! 0%nat
      = Some (Returned (RErr (Some ex_close_error)))
  ∧ goroutines (after (Enter 0%nat CallClose :: ex_sched_close) ex_waiting) !! 1%nat
      = Some (InAccept AcceptRecv)
  ∧ step (Run 1%nat) (after (Enter 0%nat CallClose :: ex_sched_close) ex_waiting)
      = None.
Proof.
  assert (Hreach : reachable ex_waiting).
  { exists 1000, 50, ex_boot, [Enter 1%nat CallAccept; Run 1%nat].
    split; [exact ex_boot_started|]. vm_compute. reflexivity. }
  assert (Hrun : run (Enter 0%nat CallClose :: ex_sched_close) ex_waiting
                 = Some (after (Enter 0%nat CallClose :: ex_sched_close) ex_waiting))
    by (vm_compute; reflexivity).
  assert (Hv : goroutines (after (Enter 0%nat CallClose :: ex_sched_close)
                             ex_waiting) !! 0%nat
               = Some (Returned (RErr (Some ex_close_error))))
    by (vm_compute; reflexivity).
  assert (Hg : goroutines (after (Enter 0%nat CallClose :: ex_sched_close)
                             ex_waiting) !! 1%nat
               = Some (InAccept AcceptRecv))
    by (vm_compute; reflexivity).
  split; [exact Hreach|]. split; [reflexivity|]. split; [exact Hrun|].
  split; [reflexivity|]. split; [exact Hv|]. split; [exact Hg|].
  exact (proj1 (proj2 (Close_leaves_Accept_without_deadline_blocked
                         0%nat ex_waiting ex_sched_close _ 1%nat _
                         Hreach eq_refl Hrun eq_refl Hv Hg [] _ eq_refl))).
Defined.

Lemma AcceptWithContext_without_timer_ignores_cancellation_witness :
  goroutines ex_zeroed !! 0%nat
    = Some (InAcceptWithContext 0%nat (CtxAccept AcceptLoad))
  ∧ (deadline (lst ex_zeroed) = None ∨ deadline (lst ex_zeroed) = Some 0)
  ∧ ∃ s1, step (Run 0%nat) ex_zeroed = Some s1
      ∧ ∀ s', run ex_sched_cancel s1 = Some s' →
          goroutines s' !! 0%nat
            = Some (InAcceptWithContext 0%nat (CtxAccept AcceptRecv)).
Proof.
  assert (Hg : goroutines ex_zeroed !! 0%nat
               = Some (InAcceptWithContext 0%nat (CtxAccept AcceptLoad)))
    by (vm_compute; reflexivity).
  assert (Hd : deadline (lst ex_zeroed) = None ∨ deadline (lst ex_zeroed) = Some 0)
    by (right; vm_compute; reflexivity).
  split; [exact Hg|]. split; [exact Hd|].
  destruct (AcceptWithContext_without_timer_ignores_cancellation
              0%nat 0%nat ex_zeroed Hg Hd) as (s1 & Hstep & _ & Hstay).
  exists s1. split; [exact Hstep|].
  intros s' Hrun. exact (proj1 (Hstay ex_sched_cancel s' Hrun eq_refl)).
Defined.

Lemma Close_waits_for_listener_Accept_witness :
  reachable ex_pump_blocked
  ∧ pump ex_pump_blocked = PumpBlocked
  ∧ goroutines ex_pump_blocked !! 0%nat = Some (InClose CloseListener)
  ∧ run ex_sched_stuck ex_pump_blocked = Some (after ex_sched_stuck ex_pump_blocked)
  ∧ no_accept_return ex_sched_stuck = true
  ∧ wg (lst (after ex_sched_stuck ex_pump_blocked)) = 1.
Proof.
  assert (Hreach : reachable ex_pump_blocked).
  { exists 1000, 50, ex_boot, [PumpRun; Enter 0%nat CallClose].
    split; [exact ex_boot_started|]. vm_compute. reflexivity. }
  assert (Hg : goroutines ex_pump_blocked !! 0%nat = Some (InClose CloseListener))
    by (vm_compute; reflexivity).
  assert (Hrun : run ex_sched_stuck ex_pump_blocked
                 = Some (after ex_sched_stuck ex_pump_blocked))
    by (vm_compute; reflexivity).
  split; [exact Hreach|]. split; [reflexivity|]. split; [exact Hg|].
  split; [exact Hrun|]. split; [reflexivity|].
  exact (proj1 (proj2 (Close_waits_for_listener_Accept 0%nat CloseListener
                         ex_pump_blocked ex_sched_stuck _
                         Hreach eq_refl Hg Hrun eq_refl))).
Defined.

Lemma AcceptWithContext_heartbeat_round_witness :
  goroutines ex_at_line_80 !! 0%nat = Some (InAcceptWithContext 0%nat CtxSetDeadline)
  ∧ Add (now ex_at_line_80) (heartBeat (lst ex_at_line_80)) ≠ 0
  ∧ minDuration ≤ heartBeat (lst ex_at_line_80) ≤ maxDuration
  ∧ ∃ s1, run [Run 0%nat; Run 0%nat; Run 0%nat] ex_at_line_80 = Some s1
      ∧ deadline (lst s1) = Some (now ex_at_line_80 + heartBeat (lst ex_at_line_80)).
Proof.
  assert (Hg : goroutines ex_at_line_80 !! 0%nat
               = Some (InAcceptWithContext 0%nat CtxSetDeadline))
    by (vm_compute; reflexivity).
  assert (Hnz : Add (now ex_at_line_80) (heartBeat (lst ex_at_line_80)) ≠ 0)
    by (vm_compute; discriminate).
  assert (Hr : minDuration ≤ heartBeat (lst ex_at_line_80) ≤ maxDuration)
    by (split; vm_compute; discriminate).
  split; [exact Hg|]. split; [exact Hnz|]. split; [exact Hr|].
  destruct (AcceptWithContext_heartbeat_round 0%nat 0%nat ex_at_line_80 Hg Hnz Hr)
    as (s1 & Hrun & _ & Hd & _).
  exists s1. split; [exact Hrun|exact Hd].
Defined.

Lemma AcceptWithContext_returns_offered_connection_witness :
  free 0%nat ex_offer = true
  ∧ contexts ex_offer !! 0%nat = None
  ∧ pump ex_offer = PumpSelect ex_conn
  ∧ err ex_conn = None
  ∧ Add (now ex_offer) (heartBeat (lst ex_offer)) ≠ 0
  ∧ ∃ s', run (Enter 0%nat (CallAcceptWithContext 0%nat) :: ex_sched_take) ex_offer
            = Some s'
      ∧ goroutines s' !! 0%nat
          = Some (Returned (RConn (Some (NewConnDTLS (conn ex_conn)), None))).
Proof.
  assert (Hnz : Add (now ex_offer) (heartBeat (lst ex_offer)) ≠ 0)
    by (vm_compute; discriminate).
  split; [reflexivity|]. split; [reflexivity|]. split; [reflexivity|].
  split; [reflexivity|]. split; [exact Hnz|].
  destruct (AcceptWithContext_returns_offered_connection 0%nat 0%nat ex_conn
              ex_offer eq_refl eq_refl eq_refl eq_refl Hnz) as (s' & Hrun & Hg & _).
  exists s'. split; [exact Hrun|exact Hg].
Defined.


Lemma Accept_returns_connection_or_error_witness :
  free 0%nat ex_offer = true
  ∧ run [Enter 0%nat CallAccept; Run 0%nat; Handoff 0%nat] ex_offer
      = Some (after [Enter 0%nat CallAccept; Run 0%nat; Handoff 0%nat] ex_offer)
  ∧ same_call 0%nat [Run 0%nat; Handoff 0%nat] = true
  ∧ goroutines (after [Enter 0%nat CallAccept; Run 0%nat; Handoff 0%nat] ex_offer)
      !! 0%nat = Some (Returned (RConn (Some 4%nat, None)))
  ∧ ((∃ x, (Some 4%nat, @None error) = (Some x, None))
     ∨ (∃ e, (Some 4%nat, @None error) = (None, Some e))).
Proof.
  assert (Hrun : run [Enter 0%nat CallAccept; Run 0%nat; Handoff 0%nat] ex_offer
                 = Some (after [Enter 0%nat CallAccept; Run 0%nat; Handoff 0%nat]
                           ex_offer)) by (vm_compute; reflexivity).
  assert (Hv : goroutines (after [Enter 0%nat CallAccept; Run 0%nat; Handoff 0%nat]
                             ex_offer) !! 0%nat
               = Some (Returned (RConn (Some 4%nat, None))))
    by (vm_compute; reflexivity).
  split; [reflexivity|]. split; [exact Hrun|]. split; [reflexivity|].
  split; [exact Hv|].
  destruct (Accept_returns_connection_or_error 0%nat ex_offer
              [Run 0%nat; Handoff 0%nat] _ _ eq_refl Hrun eq_refl Hv)
    as (r & Hr & _ & Hshape).
  injection Hr as <-. exact Hshape.
Defined.

Lemma SetDeadline_does_not_reach_pending_Accept_witness :
  goroutines ex_selecting !! 0%nat = Some (InAccept (AcceptSelect 1005))
  ∧ free 1%nat ex_selecting = true
  ∧ ∃ s', run [Enter 1%nat (CallSetDeadline 2000); Run 1%nat] ex_selecting = Some s'
      ∧ deadline (lst s') = Some 2000
      ∧ goroutines s' !! 0%nat = Some (InAccept (AcceptSelect 1005)).
Proof.
  assert (Hg : goroutines ex_selecting !! 0%nat = Some (InAccept (AcceptSelect 1005)))
    by (vm_compute; reflexivity).
  assert (Hfree : free 1%nat ex_selecting = true) by (vm_compute; reflexivity).
  split; [exact Hg|]. split; [exact Hfree|].
  destruct (SetDeadline_does_not_reach_pending_Accept 0%nat 1%nat 1005 2000
              ex_selecting Hg Hfree) as (s' & Hrun & Hd & Hg' & _).
  exists s'. split; [exact Hrun|]. split; [exact Hd|exact Hg'].
Defined.


Lemma AcceptWithContext_waits_at_most_a_heartbeat_witness :
  free 0%nat ex_boot = true
  ∧ no_SetDeadline ex_boot
  ∧ forallb calls_no_SetDeadline ex_sched_poll = true
  ∧ 0 < now ex_boot + heartBeat (lst ex_boot)
  ∧ run (Enter 0%nat (CallAcceptWithContext 0%nat) :: ex_sched_poll) ex_boot
      = Some (after (Enter 0%nat (CallAcceptWithContext 0%nat) :: ex_sched_poll)
                ex_boot)
  ∧ goroutines (after (Enter 0%nat (CallAcceptWithContext 0%nat) :: ex_sched_poll)
                  ex_boot) !! 0%nat
      = Some (InAcceptWithContext 0%nat (CtxAccept (AcceptSelect 1050)))
  ∧ 1050 ≤ now (after (Enter 0%nat (CallAcceptWithContext 0%nat) :: ex_sched_poll)
                  ex_boot)
           + Z.max 0 (heartBeat (lst ex_boot)).
Proof.
  assert (Hq : no_SetDeadline ex_boot) by apply map_Forall_empty.
  assert (Hpos : 0 < now ex_boot + heartBeat (lst ex_boot))
    by (vm_compute; reflexivity).
  assert (Hrun : run (Enter 0%nat (CallAcceptWithContext 0%nat) :: ex_sched_poll)
                     ex_boot
                 = Some (after (Enter 0%nat (CallAcceptWithContext 0%nat)
                                  :: ex_sched_poll) ex_boot))
    by (vm_compute; reflexivity).
  assert (Hg : goroutines (after (Enter 0%nat (CallAcceptWithContext 0%nat)
                                    :: ex_sched_poll) ex_boot) !! 0%nat
               = Some (InAcceptWithContext 0%nat (CtxAccept (AcceptSelect 1050))))
    by (vm_compute; reflexivity).
  split; [reflexivity|]. split; [exact Hq|]. split; [reflexivity|].
  split; [exact Hpos|]. split; [exact Hrun|]. split; [exact Hg|].
  exact (proj1 (proj2 (AcceptWithContext_waits_at_most_a_heartbeat 0%nat 0%nat
                         ex_boot ex_sched_poll _ eq_refl Hq eq_refl Hpos Hrun)
                  0%nat 1050 Hg)).
Defined.

End Witnesses.
